(** * DUELIST-SAINT: the probability engine of the deck analyser

    A shallow embedding of [mathUtils.ts] (combinatorics kernel,
    hypergeometric functions, constrained draw-vector enumerator) and of the
    engine closures of [App.tsx] ([calculateStepProb], the best-of-3 formula
    and the Swiss round distribution of [tournamentAnalysis]).

    Numbers.  A JavaScript [number] holding an integer (card counts, draw
    counts, combination counts) is a [Z]; a JavaScript [number] holding a
    probability is a [number] below: an exact rational, or one of the three
    IEEE special values that a division by zero produces.  Arithmetic on
    finite values is exact: rounding errors of the double format are not
    part of the model.  [Module LogSpace] transcribes the log-space
    kernel over the real numbers and proves that it computes the exact
    combination count used by the executable definitions.

    The statements on [number] are those that the doubles of the code
    satisfy as well: equalities between expressions, the guards and the
    exceptions, and bounds that rounding keeps.  The Swiss round
    distribution, whose sum is a matter of rounding, is embedded on the
    binary64 [float] of the kernel instead, with the functions of [Math]
    that an engine only approximates as parameters ([Module Double]). *)

From Stdlib Require Import PrimFloat.
From Stdlib Require Uint63.
From Stdlib Require Import ZArith QArith Qround Qpower Qabs Reals Psatz.
From stdpp Require Import gmap strings list pretty.

Local Open Scope Z_scope.

(** ** 4.1 Combinatorics kernel *)

(** [for (let i = 2; i <= n; i++)]: the values taken by [i]. *)
Definition loop_2_to (n : Z) : list Z := seqZ 2 (n - 1).

Module LogSpace.

(** [Math.round x] is [floor (x + 0.5)]. *)
Definition Math_round (x : R) : Z := Zfloor (x + / 2)%R.

(** [const logFactorial = (n) => { let res = 0;
      for (let i = 2; i <= n; i++) res += Math.log(i); return res; }] *)
Definition logFactorial (n : Z) : R :=
  foldl (fun res i => (res + ln (IZR i))%R) 0%R (loop_2_to n).

Definition nCr (n r : Z) : Z :=
  if (r <? 0) || (r >? n) then 0
  else if (r =? 0) || (r =? n) then 1
  else
    let r := if 2 * r >? n then n - r else r in
    Math_round (exp (logFactorial n - logFactorial r - logFactorial (n - r))).

End LogSpace.

(** [Math.round] on an exact rational. *)
Definition Math_round (x : Q) : Z := Qfloor (x + (1 # 2)).

(** The exponential of [logFactorial n]: the loop of [logFactorial] with the
    accumulator [res] carried as [exp res], so [res += Math.log(i)] becomes
    a multiplication by [i] and the initial [0] becomes [1]. *)
Definition expLogFactorial (n : Z) : Z :=
  foldl (fun res i => res * i) 1 (loop_2_to n).

(** [nCr]: the guards and the symmetry step are those of the source; the
    last line evaluates
    [exp (logFactorial n - logFactorial r - logFactorial (n - r))] exactly,
    as the quotient of the three exponentials, before rounding. *)
Definition nCr (n r : Z) : Z :=
  if (r <? 0) || (r >? n) then 0
  else if (r =? 0) || (r =? n) then 1
  else
    let r := if 2 * r >? n then n - r else r in
    Math_round (inject_Z (expLogFactorial n)
                / (inject_Z (expLogFactorial r) * inject_Z (expLogFactorial (n - r)))).

(** [nCr(n, undefined)], reached when a vector is shorter than the list of
    categories: every comparison with [undefined] is false,
    [logFactorial(undefined)] and [logFactorial(NaN)] are [0] (their loops
    never run), and the result is [Math.round(Math.exp(logFactorial(n)))]. *)
Definition nCr_undefined (n : Z) : Z :=
  Math_round (inject_Z (expLogFactorial n)).

(** The mathematical binomial coefficient, by Pascal's rule. *)
Fixpoint binom (n k : nat) : Z :=
  match n, k with
  | _, O => 1
  | O, S _ => 0
  | S n', S k' => binom n' k' + binom n' k
  end.

(** ** JavaScript numbers holding probabilities *)

(** The value of a floating-point expression: an exact rational or one of
    the IEEE special values.  Zero is unsigned: every zero divisor in the
    modelled code is a combination count, hence [+0]. *)
Inductive number : Type :=
  | Fin (q : Q)
  | PInf
  | NInf
  | NaN.

Definition is_zero (q : Q) : bool := Qeq_bool q 0.
Definition is_neg (q : Q) : bool := negb (Qle_bool 0 q).

Definition nadd (a b : number) : number :=
  match a, b with
  | NaN, _ | _, NaN => NaN
  | PInf, NInf | NInf, PInf => NaN
  | PInf, _ | _, PInf => PInf
  | NInf, _ | _, NInf => NInf
  | Fin x, Fin y => Fin (x + y)
  end.

Definition nneg (a : number) : number :=
  match a with
  | Fin x => Fin (- x)
  | PInf => NInf
  | NInf => PInf
  | NaN => NaN
  end.

Definition nsub (a b : number) : number := nadd a (nneg b).

Definition signed_inf (negative : bool) : number :=
  if negative then NInf else PInf.

Definition nmul (a b : number) : number :=
  match a, b with
  | NaN, _ | _, NaN => NaN
  | Fin x, Fin y => Fin (x * y)
  | Fin x, PInf | PInf, Fin x =>
      if is_zero x then NaN else signed_inf (is_neg x)
  | Fin x, NInf | NInf, Fin x =>
      if is_zero x then NaN else signed_inf (negb (is_neg x))
  | PInf, PInf | NInf, NInf => PInf
  | PInf, NInf | NInf, PInf => NInf
  end.

Definition ndiv (a b : number) : number :=
  match a, b with
  | NaN, _ | _, NaN => NaN
  | Fin x, Fin y =>
      if is_zero y then
        if is_zero x then NaN else signed_inf (is_neg x)
      else Fin (x / y)
  | Fin _, (PInf | NInf) => Fin 0
  | PInf, Fin y => signed_inf (is_neg y)
  | NInf, Fin y => signed_inf (negb (is_neg y))
  | (PInf | NInf), (PInf | NInf) => NaN
  end.

Definition of_int (z : Z) : number := Fin (inject_Z z).

Declare Scope number_scope.
Delimit Scope number_scope with num.
Bind Scope number_scope with number.
Infix "+" := nadd : number_scope.
Infix "-" := nsub : number_scope.
Infix "*" := nmul : number_scope.
Infix "/" := ndiv : number_scope.

(** Equality of numbers as values: [NaN] is identified with itself here,
    this is the relation between two descriptions of one result, not the
    JavaScript operator [===]. *)
Definition same_number (a b : number) : Prop :=
  match a, b with
  | Fin x, Fin y => (x == y)%Q
  | PInf, PInf | NInf, NInf | NaN, NaN => True
  | _, _ => False
  end.

(** A real number in the closed interval from [lo] to [hi]. *)
Definition in_interval (lo hi : Q) (a : number) : Prop :=
  match a with
  | Fin x => (lo <= x <= hi)%Q
  | _ => False
  end.

(** ** 4.2 Hypergeometric functions *)

Definition hypergeometricPMF (N K n k : Z) : number :=
  let numerator := nCr K k * nCr (N - K) (n - k) in
  let denominator := nCr N n in
  (of_int numerator / of_int denominator)%num.

(** [nCr(populationCounts[i], drawnCounts[i])], where [drawnCounts[i]] may
    be [undefined]. *)
Definition nCr_drawn (p : Z) (d : option Z) : Z :=
  match d with
  | Some r => nCr p r
  | None => nCr_undefined p
  end.

Definition multivariateHypergeometricPMF
    (populationCounts drawnCounts : list Z) (N n : Z) : number :=
  if bool_decide (foldl Z.add 0 drawnCounts ≠ n) then Fin 0
  else
    let numerator :=
      foldl (fun numerator i =>
               numerator * nCr_drawn (populationCounts !!! i) (drawnCounts !! i))
            1 (seq 0 (length populationCounts)) in
    (of_int numerator / of_int (nCr N n))%num.

(** ** 4.3 Constrained draw-vector enumerator *)

Record Bounds : Type := { bound_min : Z; bound_max : Z }.

(** A loop whose body may throw: the iterations run in order on the state,
    and the first exception ([None]) ends the loop. *)
Definition for_each {A S : Type} (body : S → A → option S) : list A → S → option S :=
  fix go xs st :=
    match xs with
    | [] => Some st
    | x :: xs' => st' ← body st x; go xs' st'
    end.

(** [mapping[i].forEach(role => { if (roleCounts[role] !== undefined)
      roleCounts[role] += vector[i]; })].
    Role labels are ordinary strings; the label [__proto__], which a
    JavaScript object does not store as a key, is outside the model. *)
Definition addRoleCount (x : Z) (roleCounts : gmap string Z) (role : string)
    : gmap string Z :=
  match roleCounts !! role with
  | Some c => <[role := c + x]> roleCounts
  | None => roleCounts
  end.

(** [checkThresholds]; [None] is the [TypeError] of [mapping[i].forEach]
    when [mapping] has no entry for the category [i]. *)
Definition checkThresholds (vector : list Z) (mapping : list (list string))
    (reqs : gmap string Bounds) : option bool :=
  let roleCounts : gmap string Z := (fun _ => 0) <$> reqs in
  roleCounts ←
    for_each (fun roleCounts i =>
                roles ← mapping !! i;
                Some (foldl (addRoleCount (vector !!! i)) roleCounts roles))
             (seq 0 (length vector)) roleCounts;
  Some (forallb (fun '(role, bounds) =>
                   match roleCounts !! role with
                   | Some c => (bound_min bounds <=? c) && (c <=? bound_max bounds)
                   | None => false
                   end)
                (map_to_list reqs)).

(** The two arrays that [solve] mutates. *)
Record Enumeration : Type := { current : list Z; vectors : list (list Z) }.

Section Enumerator.
Variables (atomToRoles : list (list string)) (thresholds : gmap string Bounds).

(** [solve(idx, remaining)].  The first argument is the part of
    [populationCounts] from index [idx] on: it is a single category exactly
    when [idx === populationCounts.length - 1], and it is empty when
    [populationCounts[idx]] is [undefined] (then [maxCanDraw] is [NaN] and
    the loop body never runs). *)
Fixpoint solve (fromIdx : list Z) (idx : nat) (remaining : Z)
    (st : Enumeration) {struct fromIdx} : option Enumeration :=
  match fromIdx with
  | [] => Some st
  | [last] =>
      if remaining <=? last then
        let current' := <[idx := remaining]> (current st) in
        ok ← checkThresholds current' atomToRoles thresholds;
        Some {| current := current';
                vectors := if ok : bool then vectors st ++ [current']
                           else vectors st |}
      else Some st
  | p :: rest =>
      let maxCanDraw := Z.min remaining p in
      for_each (fun st i =>
                  solve rest (S idx) (remaining - i)
                        {| current := <[idx := i]> (current st);
                           vectors := vectors st |})
               (seqZ 0 (maxCanDraw + 1)) st
  end.

End Enumerator.

Definition getValidDrawVectors (populationCounts : list Z) (totalDraws : Z)
    (targetRoles : list string) (atomToRoles : list (list string))
    (thresholds : gmap string Bounds) : option (list (list Z)) :=
  st ← solve atomToRoles thresholds populationCounts 0 totalDraws
       {| current := replicate (length populationCounts) 0; vectors := [] |};
  Some (vectors st).

(** The enumerator in the words of the specification. *)
Definition roleSum (role : string) (v : list Z) (mapping : list (list string)) : Z :=
  foldr Z.add 0
        (zip_with (fun x roles => if bool_decide (role ∈ roles) then x else 0)
                  v mapping).

Definition validDrawVector (populationCounts : list Z) (totalDraws : Z)
    (mapping : list (list string)) (thresholds : gmap string Bounds)
    (v : list Z) : Prop :=
  Forall2 (fun x p => 0 <= x <= p) v populationCounts
  ∧ foldr Z.add 0 v = totalDraws
  ∧ ∀ role b, thresholds !! role = Some b →
      bound_min b <= roleSum role v mapping <= bound_max b.

(** The enumeration without its mutable arrays: the vectors that [solve]
    completes, in the order in which it completes them, before the
    threshold check. *)
Fixpoint compositions (populationCounts : list Z) (totalDraws : Z) : list (list Z) :=
  match populationCounts with
  | [] => []
  | [last] => if totalDraws <=? last then [[totalDraws]] else []
  | p :: rest =>
      i ← seqZ 0 (Z.min totalDraws p + 1);
      cons i <$> compositions rest (totalDraws - i)
  end.

(** The event probability of 4.4, the body that [baseProb] and
    [calcProbForDeck] share: the sum of the probability of every valid draw
    vector. *)
Definition eventProbability (populationCounts : list Z) (drawCount : Z)
    (rolesList : list string) (atomToRoles : list (list string))
    (thresholds : gmap string Bounds) (totalDeck : Z) : option number :=
  validVectors ← getValidDrawVectors populationCounts drawCount rolesList
                                     atomToRoles thresholds;
  Some (foldl (fun totalProb v =>
                 (totalProb
                  + multivariateHypergeometricPMF populationCounts v totalDeck drawCount)%num)
              (Fin 0) validVectors).

(** ** Types and constants of the application *)

Inductive TCGType : Type := YUGIOH | MTG | POKEMON | ONE_PIECE | CUSTOM.

Inductive MulliganType : Type :=
  | mulligan_none | mulligan_mtg | mulligan_one_piece | mulligan_pokemon.

Record MulliganConfig : Type := {
  enabled : bool;
  type : MulliganType;
  keepRole : string;
  keepMin : Z;
  maxMulligans : Z
}.

Record GamePreset : Type := {
  defaultDeckSize : Z;
  minDeckSize : Z;
  maxDeckSize : Z;
  startingHandSize : Z;
  drawOnTurnOneFirst : bool;
  drawOnTurnOneSecond : bool;
  mulliganType : MulliganType
}.

Record DeckAtom : Type := {
  id : string;
  name : string;
  count : Z;
  roles : list string
}.

Record RoleThreshold : Type := {
  role : string;
  minCount : Z;
  maxCount : Z
}.

Record CompoundCondition : Type := {
  condition_id : string;
  condition_name : string;
  weight : Q;
  thresholds : list RoleThreshold
}.

Definition GAME_PRESETS (t : TCGType) : GamePreset :=
  match t with
  | YUGIOH => {| defaultDeckSize := 40; minDeckSize := 40; maxDeckSize := 60;
                 startingHandSize := 5; drawOnTurnOneFirst := false;
                 drawOnTurnOneSecond := true; mulliganType := mulligan_none |}
  | MTG => {| defaultDeckSize := 60; minDeckSize := 60; maxDeckSize := 300;
              startingHandSize := 7; drawOnTurnOneFirst := false;
              drawOnTurnOneSecond := true; mulliganType := mulligan_mtg |}
  | POKEMON => {| defaultDeckSize := 60; minDeckSize := 60; maxDeckSize := 60;
                  startingHandSize := 7; drawOnTurnOneFirst := true;
                  drawOnTurnOneSecond := true; mulliganType := mulligan_pokemon |}
  | ONE_PIECE => {| defaultDeckSize := 50; minDeckSize := 50; maxDeckSize := 50;
                    startingHandSize := 5; drawOnTurnOneFirst := false;
                    drawOnTurnOneSecond := true; mulliganType := mulligan_one_piece |}
  | CUSTOM => {| defaultDeckSize := 40; minDeckSize := 1; maxDeckSize := 1000;
                 startingHandSize := 5; drawOnTurnOneFirst := false;
                 drawOnTurnOneSecond := true; mulliganType := mulligan_none |}
  end.

Definition DEFAULT_ROLES : list string :=
  ["Starter"; "Extender"; "Brick"; "Defensive"; "Utility"]%string.

(** The React state that the engine closures of [App] read. *)
Record AppState : Type := {
  selectedTCG : TCGType;
  deckSize : Z;
  startHand : Z;
  isGoingSecond : bool;
  mulligan : MulliganConfig;
  atoms : list DeckAtom
}.

(** ** 4.4 Probability composition layer *)

Section Engine.
Variable s : AppState.

Definition currentPreset : GamePreset := GAME_PRESETS (selectedTCG s).

Definition totalAtomCount : Z :=
  foldl (fun sum a => sum + count a) 0 (atoms s).

Definition remainingCards : Z := deckSize s - totalAtomCount.

(** [new Set(DEFAULT_ROLES)], every role of every atom added, then
    [Array.from]: the labels in the order of their first insertion. *)
Definition allRoles : list string :=
  foldl (fun roles r => if bool_decide (r ∈ roles) then roles else roles ++ [r])
        [] (DEFAULT_ROLES ++ concat (roles <$> atoms s)).

Definition populationCounts : list Z :=
  (count <$> atoms s) ++ (if 0 <? remainingCards then [remainingCards] else []).

Definition atomToRoles : list (list string) :=
  (roles <$> atoms s) ++ (if 0 <? remainingCards then [[]] else []).

(** [condition.thresholds.forEach(t => { thresholds[t.role] = ... })]. *)
Definition thresholdsOf (condition : CompoundCondition) : gmap string Bounds :=
  foldl (fun thresholds t =>
           <[role t := {| bound_min := minCount t; bound_max := maxCount t |}]> thresholds)
        ∅ (thresholds condition).

(** The closure [baseProb], with the thresholds it captures as argument. *)
Definition baseProb (drawCount : Z) (thresholds : gmap string Bounds)
    : option number :=
  eventProbability populationCounts drawCount allRoles atomToRoles thresholds
                   (deckSize s).

Definition baseDraws : Z :=
  startHand s + (if isGoingSecond s && drawOnTurnOneSecond currentPreset then 1 else 0).

(** What one call of [calculateStepProb] did: the value it returned, the
    number of calls of [getValidDrawVectors] it made, and whether it took
    the mulligan branch. *)
Record StepRun : Type := {
  returned : number;
  enumerations : nat;
  mulliganApplied : bool
}.

Definition calculateStepProb_run (drawCount : Z) (condition : CompoundCondition)
    (forceMulligan : option bool) : option StepRun :=
  if (drawCount <=? 0) || (deckSize s <=? 0) then
    Some {| returned := Fin 0; enumerations := 0; mulliganApplied := false |}
  else
    rawProb ← baseProb drawCount (thresholdsOf condition);
    let isOpeningHand := bool_decide (drawCount = baseDraws) in
    if enabled (mulligan s) && isOpeningHand && negb (default false forceMulligan) then
      let keepThresholds : gmap string Bounds :=
        {[ keepRole (mulligan s) :=
             {| bound_min := keepMin (mulligan s); bound_max := deckSize s |} ]} in
      probKeep ← baseProb drawCount keepThresholds;
      Some {| returned := (rawProb + (Fin 1 - probKeep) * rawProb)%num;
              enumerations := 2; mulliganApplied := true |}
    else
      Some {| returned := rawProb; enumerations := 1; mulliganApplied := false |}.

(** [calculateStepProb]; [None] is an exception. *)
Definition calculateStepProb (drawCount : Z) (condition : CompoundCondition)
    (forceMulligan : option bool) : option number :=
  returned <$> calculateStepProb_run drawCount condition forceMulligan.

End Engine.

(** ** 4.5 Match and tournament aggregator *)

(** [P_match] of [tournamentAnalysis], from the four game probabilities. *)
Definition P_match (P_g1 P_g2_afterWin P_g2_afterLoss P_g3 : number) : number :=
  ((P_g1 * P_g2_afterWin)
   + (P_g1 * (Fin 1 - P_g2_afterWin) * P_g3)
   + ((Fin 1 - P_g1) * P_g2_afterLoss * P_g3))%num.

(** [pMatch] of the earlier [tournamentResults]. *)
Definition pMatch (p1 p2 p3 : number) : number :=
  ((p1 * p2) + (p1 * (Fin 1 - p2) * p3) + ((Fin 1 - p1) * p2 * p3))%num.

(** ** Double-precision numbers

    The round distribution of 4.5 is embedded on the kernel's [float], the
    IEEE binary64 numbers of JavaScript: its [+], [-], [*], [/] and
    comparisons are those of the language, bit for bit. *)

(** [Math.max(a, b)]: [NaN] as soon as an operand is, and [+0] above
    [-0]. *)
Definition Math_max (a b : float) : float :=
  if PrimFloat.is_nan a || PrimFloat.is_nan b then PrimFloat.nan
  else if (a <? b)%float then b
  else if (b <? a)%float then a
  else if PrimFloat.get_sign a then b else a.

Module Double.

(** The functions of [Math] that the kernel calls.  ECMAScript leaves the
    values of [Math.log], [Math.exp] and [Math.pow] to the engine
    (implementation-approximated); they are parameters of the model, and
    [Math.round] with them. *)
Record MathFunctions : Type := {
  Math_log : float → float;
  Math_exp : float → float;
  Math_round : float → float;
  Math_pow : float → float → float
}.

(** The [number] that holds the integer [z]; exact below [2^53]. *)
Definition of_Z (z : Z) : float :=
  if z <? 0 then (- PrimFloat.of_uint63 (Uint63.of_Z (- z)))%float
  else PrimFloat.of_uint63 (Uint63.of_Z z).

Section Kernel.
Variable Math : MathFunctions.

(** [logFactorial], in the doubles of the engine. *)
Definition logFactorial (n : Z) : float :=
  foldl (fun res i => (res + Math_log Math (of_Z i))%float) 0%float (loop_2_to n).

(** [nCr], in the doubles of the engine. *)
Definition nCr (n r : Z) : float :=
  if (r <? 0) || (r >? n) then 0%float
  else if (r =? 0) || (r =? n) then 1%float
  else
    let r := if 2 * r >? n then n - r else r in
    Math_round Math
      (Math_exp Math (logFactorial n - logFactorial r - logFactorial (n - r))%float).

(** [nCr(n, k) * Math.pow(p, k) * Math.pow(1 - p, n - k)]. *)
Definition binomProb (n k : Z) (p : float) : float :=
  (nCr n k * Math_pow Math p (of_Z k) * Math_pow Math (1 - p) (of_Z (n - k)))%float.

End Kernel.

End Double.

(** ** 4.5 The Swiss round distribution *)

Record RoundRecord : Type := {
  wins : Z;
  losses : Z;
  record : string;
  prob : float
}.

Section Swiss.
Variable Math : Double.MathFunctions.
Variables (staminaFactor : bool) (tournamentRounds topCutThreshold : Z).
Variable P_match : float.

(** The penalties [0.03] and [0.02] are the doubles nearest to them. *)
Definition getStaminaPenalty (roundNum : Z) : float :=
  if negb staminaFactor then 0%float
  else if roundNum >=? tournamentRounds then 0x1.eb851eb851eb8p-6%float
  else if roundNum >=? tournamentRounds - 1 then 0x1.47ae147ae147bp-6%float
  else 0%float.

(** [dp[r][w]] as an operand; an [undefined] operand makes the result
    [NaN]. *)
Definition dp_at (dp : list (list float)) (r w : nat) : float :=
  default PrimFloat.nan (row ← dp !! r; row !! w).

(** [dp[r][w] += x], for [r] and [w] inside the table. *)
Definition dp_add (dp : list (list float)) (r w : nat) (x : float)
    : list (list float) :=
  alter (alter (fun y => (y + x)%float) w) r dp.

(** The body of the loop over [w]:
    [if (w > 0) dp[r][w] += dp[r-1][w-1] * p;
     dp[r][w] += dp[r-1][w] * (1 - p);] *)
Definition innerBody (p : float) (r : nat) (dp : list (list float)) (w : nat)
    : list (list float) :=
  let dp := if (0 <? w)%nat
            then dp_add dp r w (dp_at dp (r - 1) (w - 1) * p)%float
            else dp in
  dp_add dp r w (dp_at dp (r - 1) w * (1 - p))%float.

(** The loop over [r], for the rounds [1..rounds]. *)
Definition roundsLoop (dp : list (list float)) (rounds : nat)
    : list (list float) :=
  foldl (fun dp r =>
           let p := Math_max 0 (P_match - getStaminaPenalty (Z.of_nat r))%float in
           foldl (innerBody p r) dp (seq 0 (S r)))
        dp (seq 1 rounds).

(** The table [dp] after the two nested loops.  [Array.from] with a
    negative length builds the empty array, and [dp[0][0] = 1] then throws
    ([None]). *)
Definition staminaTable : option (list (list float)) :=
  let size := Z.to_nat (tournamentRounds + 1) in
  let dp := replicate size (replicate size 0%float) in
  _ ← dp !! 0%nat;
  let dp := alter (fun row => <[0%nat := 1%float]> row) 0%nat dp in
  Some (roundsLoop dp (Z.to_nat tournamentRounds)).

Definition roundRecord (w : Z) (p : float) : RoundRecord :=
  {| wins := w;
     losses := tournamentRounds - w;
     record := pretty w +:+ "-" +:+ pretty (tournamentRounds - w);
     prob := p |}.

Definition roundsDist : option (list RoundRecord) :=
  if staminaFactor then
    dp ← staminaTable;
    Some ((fun w => roundRecord w (dp_at dp (Z.to_nat tournamentRounds) (Z.to_nat w)))
            <$> seqZ 0 (tournamentRounds + 1))
  else
    Some ((fun w => roundRecord w (Double.binomProb Math tournamentRounds w P_match))
            <$> seqZ 0 (tournamentRounds + 1)).

(** [roundsDist[w]?.prob ?? 0]. *)
Definition probOfWins (dist : list RoundRecord) (w : Z) : float :=
  if w <? 0 then 0%float
  else match dist !! Z.to_nat w with
       | Some r => prob r
       | None => 0%float
       end.

Definition topCutProb (dist : list RoundRecord) : float :=
  foldl (fun topCutProb w => (topCutProb + probOfWins dist w)%float)
        0%float (seqZ topCutThreshold (tournamentRounds - topCutThreshold + 1)).

End Swiss.

(** ** Definitions used by the statements and the proofs *)

(** [n!]. *)
Fixpoint factorial (n : nat) : Z :=
  match n with
  | O => 1
  | S n' => Z.of_nat n * factorial n'
  end.

(** The number of times [role] is listed in [roles]. *)
Fixpoint occurrences (role : string) (roles : list string) : Z :=
  match roles with
  | [] => 0
  | r :: rest => (if bool_decide (r = role) then 1 else 0) + occurrences role rest
  end.

(** What the loops of [checkThresholds] add to [roleCounts[role]]. *)
Definition tally (role : string) (v : list Z) (mapping : list (list string)) : Z :=
  foldr Z.add 0 (zip_with (fun x roles => x * occurrences role roles) v mapping).

(** The decision of [checkThresholds] in terms of the role sums. *)
Definition withinThresholds (v : list Z) (mapping : list (list string))
    (reqs : gmap string Bounds) : bool :=
  forallb (fun '(role, bounds) =>
             (bound_min bounds <=? tally role v mapping)
             && (tally role v mapping <=? bound_max bounds))
          (map_to_list reqs).

(** The vectors that pass the threshold check. *)
Definition accepted (atomToRoles : list (list string)) (thresholds : gmap string Bounds)
    (v : list Z) : Prop :=
  withinThresholds v atomToRoles thresholds = true.

#[global] Instance accepted_dec atomToRoles thresholds v :
  Decision (accepted atomToRoles thresholds v) :=
  decide (withinThresholds v atomToRoles thresholds = true).

(** [f 0 + ... + f (n - 1)]. *)
Fixpoint sumZ (f : nat → Z) (n : nat) : Z :=
  match n with
  | O => 0
  | S m => sumZ f m + f m
  end.

(** The sum of [f] over a list. *)
Definition sumOver {A} (f : A → Z) (l : list A) : Z :=
  foldr (fun x acc => f x + acc) 0 l.

(** The numerator of the multivariate probability of a vector. *)
Definition ways (pops v : list Z) : Z :=
  foldr Z.mul 1 (zip_with nCr pops v).






(** The number of hands that draw [v[i]] cards of the category [i], for
    every [i]: a product of mathematical binomial coefficients. *)
Definition hands (pops v : list Z) : Z :=
  foldr Z.mul 1 (zip_with (fun p x => binom (Z.to_nat p) (Z.to_nat x)) pops v).

(** *** Sample inputs *)

Definition sampleMulligan : MulliganConfig :=
  {| enabled := true; type := mulligan_none; keepRole := "Starter";
     keepMin := 1; maxMulligans := 1 |}.

(** A deck of two cards, one of them a Starter, and an opening hand of one
    card. *)
Definition sampleState : AppState :=
  {| selectedTCG := CUSTOM; deckSize := 2; startHand := 1; isGoingSecond := false;
     mulligan := sampleMulligan;
     atoms := [ {| id := "1"; name := "Starter"; count := 1; roles := ["Starter"%string] |} ] |}.

Definition needsStarter : CompoundCondition :=
  {| condition_id := "c1"; condition_name := "Playable Hand"; weight := 1;
     thresholds := [ {| role := "Starter"; minCount := 1; maxCount := 2 |} ] |}.

Definition noBrick : CompoundCondition :=
  {| condition_id := "c2"; condition_name := "No Brick"; weight := 1;
     thresholds := [ {| role := "Brick"; minCount := 0; maxCount := 0 |} ] |}.

(** The "Starter" scenario: 12 Starters in a deck of 40, the other cards
    filled in as the unassigned category, an opening hand of 5 cards. *)
Definition starterDeck : AppState :=
  {| selectedTCG := YUGIOH; deckSize := 40; startHand := 5; isGoingSecond := false;
     mulligan := {| enabled := false; type := mulligan_none; keepRole := "Starter";
                    keepMin := 1; maxMulligans := 1 |};
     atoms := [ {| id := "1"; name := "Starter"; count := 12;
                   roles := ["Starter"%string] |} ] |}.

Definition atLeastOneStarter : CompoundCondition :=
  {| condition_id := "c1"; condition_name := "Playable Hand"; weight := 1;
     thresholds := [ {| role := "Starter"; minCount := 1; maxCount := 40 |} ] |}.

(** A stand-in for the [Math] of an engine: the stamina branch calls none of
    its functions. *)
Definition noMath : Double.MathFunctions :=
  {| Double.Math_log := fun _ => PrimFloat.nan;
     Double.Math_exp := fun _ => PrimFloat.nan;
     Double.Math_round := fun _ => PrimFloat.nan;
     Double.Math_pow := fun _ _ => PrimFloat.nan |}.

(** The double nearest to [0.648]. *)
Definition sampleP : float := 0x1.4bc6a7ef9db23p-1%float.

(** Twelve Starters and three Bricks, for a deck of 40 cards. *)
Definition brickDeck : list DeckAtom :=
  [ {| id := "1"; name := "Starter"; count := 12; roles := ["Starter"%string] |};
    {| id := "2"; name := "Garnet"; count := 3; roles := ["Brick"%string] |} ].

(** ** The rest of the application: derived state and handlers *)

(** [new Set(DEFAULT_ROLES)] with the roles of [deckAtoms] added, as an
    array: [allRoles] for any list of atoms ([postSideAllRoles] is the
    instance at [postSideAtoms]). *)
Definition rolesOf (deckAtoms : list DeckAtom) : list string :=
  foldl (fun roles r => if bool_decide (r ∈ roles) then roles else roles ++ [r])
        [] (DEFAULT_ROLES ++ concat (roles <$> deckAtoms)).

(** [globalRoleCounts]: [counts[r] = 0] for every role, then
    [counts[role] += atom.count] for every role of every atom; adding to a
    missing key would store [NaN]. *)
Definition globalRoleCounts (s : AppState) : gmap string number :=
  let counts : gmap string number :=
    foldl (fun counts r => <[r := Fin 0]> counts) ∅ (allRoles s) in
  foldl (fun counts atom =>
           foldl (fun counts role =>
                    <[role := (default NaN (counts !! role) + of_int (count atom))%num]>
                      counts)
                 counts (roles atom))
        counts (atoms s).

(** [toggleRoleInAtom(atomId, role)]: the new value of [atoms]. *)
Definition toggleRoleInAtom (atoms : list DeckAtom) (atomId role : string)
    : list DeckAtom :=
  (fun a =>
     if bool_decide (id a ≠ atomId) then a
     else
       let newRoles :=
         if bool_decide (role ∈ roles a)
         then filter (fun r => r ≠ role) (roles a)
         else roles a ++ [role] in
       {| id := id a; name := name a; count := count a; roles := newRoles |})
  <$> atoms.

(** The tournament and sideboard part of the React state. *)
Record TournamentConfig : Type := {
  conditions : list CompoundCondition;
  tournamentRounds : Z;
  sideboardVariance : Q;
  g1GoingFirst : bool;
  topCutThreshold : Z;
  sideDeckAtoms : list DeckAtom;
  sideOuts : gmap string Z;
  isPostSideboard : bool;
  brickSensitivity : bool;
  staminaFactor : bool
}.

Section Sideboard.
Variables (s : AppState) (t : TournamentConfig).

(** [Object.values(sideOuts).reduce((s, v) => s + v, 0)]. *)
Definition totalSidedOut : Z := map_fold (fun _ v sum => sum + v) 0 (sideOuts t).

Definition totalSidedIn : Z := foldl (fun sum a => sum + count a) 0 (sideDeckAtoms t).

(** [sideOuts[a.id] || 0]. *)
Definition sidedOut (a : DeckAtom) : Z := default 0 (sideOuts t !! id a).

Definition postSideAtoms : list DeckAtom :=
  let modified :=
    filter (fun a => 0 < count a)
           ((fun a => {| id := id a; name := name a;
                         count := Z.max 0 (count a - sidedOut a);
                         roles := roles a |}) <$> atoms s) in
  modified ++ filter (fun a => 0 < count a) (sideDeckAtoms t).

Definition postSideDeckSize : Z := deckSize s - totalSidedOut + totalSidedIn.

Definition postSideAllRoles : list string := rolesOf postSideAtoms.

End Sideboard.

(** One tier of [quantumWeightData]. *)
Record QuantumTier : Type := {
  tier_name : string;
  tier_weight : Q;
  tier_count : Z;
  color : string
}.

(** [tiers[i].count += n]. *)
Definition addToTier (i : nat) (n : Z) (tiers : list QuantumTier) : list QuantumTier :=
  alter (fun tier => {| tier_name := tier_name tier; tier_weight := tier_weight tier;
                        tier_count := tier_count tier + n; color := color tier |})
        i tiers.

Definition quantumWeightData (s : AppState) (t : TournamentConfig)
    : list QuantumTier :=
  let activeAtoms := if isPostSideboard t then postSideAtoms s t else atoms s in
  let tiers :=
    [ {| tier_name := "Ultimate (6.0)"; tier_weight := 6; tier_count := 0;
         color := "#f59e0b" |};
      {| tier_name := "Omni-Role (4.0)"; tier_weight := 4; tier_count := 0;
         color := "#6366f1" |};
      {| tier_name := "Pure Role (2.0)"; tier_weight := 2; tier_count := 0;
         color := "#10b981" |};
      {| tier_name := "Brick (0.0)"; tier_weight := 0; tier_count := 0;
         color := "#ef4444" |} ] in
  foldl (fun tiers atom =>
           let isBrick := bool_decide ("Brick"%string ∈ roles atom) in
           let functionalRoles :=
             length (filter (fun r => r ≠ "Brick"%string) (roles atom)) in
           if isBrick && (functionalRoles =? 0)%nat then addToTier 3 (count atom) tiers
           else if (3 <=? functionalRoles)%nat then addToTier 0 (count atom) tiers
           else if (functionalRoles =? 2)%nat then addToTier 1 (count atom) tiers
           else addToTier 2 (count atom) tiers)
        tiers activeAtoms.

(** The dead-draw penalty of [calcProbForDeck]: the cap on the Brick count,
    applied to the thresholds of the condition; [maxBricks] is [None] when
    the argument is [undefined]. *)
Definition brickCap (thresholds : gmap string Bounds) (maxBricks : option Z)
    : gmap string Bounds :=
  match maxBricks with
  | Some maxBricks =>
      match thresholds !! "Brick"%string with
      | Some b =>
          <["Brick"%string := {| bound_min := bound_min b;
                                 bound_max := Z.min (bound_max b) maxBricks |}]>
            thresholds
      | None =>
          <["Brick"%string := {| bound_min := 0; bound_max := maxBricks |}]>
            thresholds
      end
  | None => thresholds
  end.

Definition calcProbForDeck (deckAtoms : list DeckAtom) (totalDeck drawCount : Z)
    (condition : CompoundCondition) (rolesList : list string) (maxBricks : option Z)
    : option number :=
  if (drawCount <=? 0) || (totalDeck <=? 0) then Some (Fin 0)
  else
    let atomTotal := foldl (fun s a => s + count a) 0 deckAtoms in
    let rem := totalDeck - atomTotal in
    let populationCounts :=
      (count <$> deckAtoms) ++ (if 0 <? rem then [rem] else []) in
    let atomToRoles :=
      (roles <$> deckAtoms) ++ (if 0 <? rem then [[]] else []) in
    let thresholds := brickCap (thresholdsOf condition) maxBricks in
    eventProbability populationCounts drawCount rolesList atomToRoles thresholds
                     totalDeck.

(** A state holding the deck [deckAtoms] of size [totalDeck]; the other
    fields do not matter. *)
Definition deckState (deckAtoms : list DeckAtom) (totalDeck : Z) : AppState :=
  {| selectedTCG := CUSTOM; deckSize := totalDeck; startHand := 0;
     isGoingSecond := false;
     mulligan := {| enabled := false; type := mulligan_none; keepRole := "Starter";
                    keepMin := 0; maxMulligans := 0 |};
     atoms := deckAtoms |}.

(** ** Definitions for the statements about the deck and the sideboard *)

(** The cards that list [role], counted once for each time they list it. *)
Definition roleTotal (role : string) (deckAtoms : list DeckAtom) : Z :=
  sumOver (fun a => count a * occurrences role (roles a)) deckAtoms.

(** What the controls of the sideboard guarantee: the atoms have distinct
    ids, every entry of [sideOuts] belongs to an atom and removes between
    [0] and [atom.count] cards, and no side-deck atom has a negative
    count. *)
Definition sideboardWithinDeck (s : AppState) (t : TournamentConfig) : Prop :=
  NoDup (id <$> atoms s)
  ∧ (∀ k v, sideOuts t !! k = Some v →
            0 <= v ∧ ∃ a, a ∈ atoms s ∧ id a = k ∧ v <= count a)
  ∧ Forall (fun a => 0 <= count a) (sideDeckAtoms t).

(** The map [counts] holds the integer [g r] at every key [r] of [keys] and
    nothing else. *)
Definition countsAre (keys : list string) (counts : gmap string number)
    (g : string → Z) : Prop :=
  ∀ r, (r ∈ keys → ∃ q, counts !! r = Some (Fin q) ∧ (q == inject_Z (g r))%Q)
       ∧ (r ∉ keys → counts !! r = None).

(** * Properties *)

(** Case analysis on every integer comparison of the goal. *)
Ltac split_comparisons :=
  repeat match goal with
    | |- context [?a >? ?b] => rewrite (Z.gtb_ltb a b)
    | |- context [?a >=? ?b] => rewrite (Z.geb_leb a b)
    | |- context [?a <? ?b] => destruct (Z.ltb_spec a b)
    | |- context [?a <=? ?b] => destruct (Z.leb_spec a b)
    | |- context [?a =? ?b] => destruct (Z.eqb_spec a b)
    end; simpl.

(** ** The combinatorics kernel *)

Lemma factorial_pos n : 0 < factorial n.
Proof. induction n; simpl factorial; lia. Qed.

Lemma loop_2_to_small n : n < 2 → loop_2_to n = [].
Proof. intros. unfold loop_2_to. apply seqZ_nil. lia. Qed.

Lemma loop_2_to_succ n : 1 <= n → loop_2_to (n + 1) = loop_2_to n ++ [n + 1].
Proof.
  intros Hn. unfold loop_2_to.
  replace (n + 1 - 1) with ((n - 1) + 1) by lia.
  rewrite seqZ_app by lia. f_equal.
  rewrite seqZ_cons by lia. rewrite seqZ_nil by lia. f_equal. lia.
Qed.

Lemma loop_2_to_pos n i : i ∈ loop_2_to n → 2 <= i <= n.
Proof. unfold loop_2_to. rewrite elem_of_seqZ. lia. Qed.

Lemma expLogFactorial_factorial (n : nat) :
  expLogFactorial (Z.of_nat n) = factorial n.
Proof.
  induction n as [|n IH].
  - reflexivity.
  - destruct n as [|n].
    + reflexivity.
    + unfold expLogFactorial in *.
      replace (Z.of_nat (S (S n))) with (Z.of_nat (S n) + 1) by lia.
      rewrite loop_2_to_succ by lia. rewrite foldl_snoc, IH.
      change (factorial (S (S n))) with (Z.of_nat (S (S n)) * factorial (S n)).
      lia.
Qed.

Lemma expLogFactorial_nonpos n : n <= 1 → expLogFactorial n = 1.
Proof. intros. unfold expLogFactorial. now rewrite loop_2_to_small by lia. Qed.

Lemma expLogFactorial_Z n : expLogFactorial n = factorial (Z.to_nat n).
Proof.
  destruct (Z.le_gt_cases 0 n).
  - rewrite <- (Z2Nat.id n) at 1 by lia. apply expLogFactorial_factorial.
  - rewrite expLogFactorial_nonpos by lia.
    replace (Z.to_nat n) with O by lia. reflexivity.
Qed.

Lemma binom_0 n : binom n 0 = 1.
Proof. now destruct n. Qed.

Lemma binom_gt n : ∀ k, (n < k)%nat → binom n k = 0.
Proof.
  induction n as [|n IH]; intros [|k] H; simpl; try lia.
  rewrite !IH by lia. reflexivity.
Qed.

Lemma binom_diag n : binom n n = 1.
Proof.
  induction n as [|n IH]; simpl; [reflexivity|].
  rewrite IH, binom_gt by lia. reflexivity.
Qed.

Lemma binom_nonneg n : ∀ k, 0 <= binom n k.
Proof. induction n as [|n IH]; intros [|k]; simpl; try lia. pose proof (IH k). pose proof (IH (S k)). lia. Qed.

Lemma binom_pos n : ∀ k, (k <= n)%nat → 0 < binom n k.
Proof.
  induction n as [|n IH]; intros [|k] H; simpl; try lia.
  specialize (IH k ltac:(lia)). pose proof (binom_nonneg n (S k)). lia.
Qed.

(** [binom n k * k! * (n - k)! = n!]. *)
Lemma binom_factorial n : ∀ k, (k <= n)%nat →
  binom n k * (factorial k * factorial (n - k)) = factorial n.
Proof.
  induction n as [|n IH]; intros k Hk.
  - replace k with O by lia. reflexivity.
  - destruct k as [|k].
    + simpl binom. rewrite Nat.sub_0_r. simpl (factorial 0). lia.
    + destruct (decide (k = n)) as [->|Hne].
      * rewrite binom_diag, Nat.sub_diag. simpl (factorial 0). lia.
      * change (binom (S n) (S k)) with (binom n k + binom n (S k)).
        pose proof (IH k ltac:(lia)) as IH1.
        pose proof (IH (S k) ltac:(lia)) as IH2.
        replace (S n - S k)%nat with (n - k)%nat by lia.
        replace (n - k)%nat with (S (n - S k)) in * by lia.
        change (factorial (S n)) with (Z.of_nat (S n) * factorial n).
        change (factorial (S k)) with (Z.of_nat (S k) * factorial k) in *.
        change (factorial (S (n - S k)))
          with (Z.of_nat (S (n - S k)) * factorial (n - S k)) in *.
        replace (Z.of_nat (S n)) with (Z.of_nat (S k) + Z.of_nat (S (n - S k))) by lia.
        nia.
Qed.

Lemma binom_sym n k : (k <= n)%nat → binom n (n - k) = binom n k.
Proof.
  intros Hk.
  pose proof (binom_factorial n k Hk) as H1.
  pose proof (binom_factorial n (n - k) ltac:(lia)) as H2.
  replace (n - (n - k))%nat with k in H2 by lia.
  pose proof (factorial_pos k). pose proof (factorial_pos (n - k)).
  apply (Z.mul_cancel_r _ _ (factorial k * factorial (n - k))); [nia|].
  rewrite H1, <- H2. ring.
Qed.

Lemma Math_round_int z : Math_round (inject_Z z) = z.
Proof.
  unfold Math_round.
  assert (inject_Z z <= inject_Z z + (1 # 2))%Q as H1 by lra.
  apply Qfloor_resp_le in H1. rewrite Qfloor_Z in H1.
  assert (inject_Z z + (1 # 2) < inject_Z (z + 1))%Q as H2
    by (rewrite inject_Z_plus; change (inject_Z 1) with 1%Q; lra).
  pose proof (Qfloor_le (inject_Z z + (1 # 2))) as H3.
  assert (inject_Z (Qfloor (inject_Z z + (1 # 2))) < inject_Z (z + 1))%Q as H4 by lra.
  rewrite <- Zlt_Qlt in H4. lia.
Qed.

Lemma Math_round_proper x y : (x == y)%Q → Math_round x = Math_round y.
Proof. intros H. unfold Math_round. now rewrite H. Qed.

Lemma nCr_out_of_range n r : r < 0 ∨ n < r → nCr n r = 0.
Proof. intros H. unfold nCr. split_comparisons; try reflexivity; lia. Qed.

(** The rounded quotient of exponentials is the binomial coefficient. *)
Lemma rounded_quotient (n k : nat) : (k <= n)%nat →
  Math_round (inject_Z (expLogFactorial (Z.of_nat n))
              / (inject_Z (expLogFactorial (Z.of_nat k))
                 * inject_Z (expLogFactorial (Z.of_nat n - Z.of_nat k))))
  = binom n k.
Proof.
  intros Hk. rewrite <- Nat2Z.inj_sub by lia.
  rewrite !expLogFactorial_factorial.
  rewrite <- (Math_round_int (binom n k)). apply Math_round_proper.
  rewrite <- (binom_factorial n k Hk).
  pose proof (factorial_pos k). pose proof (factorial_pos (n - k)).
  rewrite !inject_Z_mult. field. split.
  - change 0%Q with (inject_Z 0). rewrite inject_Z_injective. lia.
  - change 0%Q with (inject_Z 0). rewrite inject_Z_injective. lia.
Qed.

(** [nCr] is the binomial coefficient on its domain. *)
Lemma nCr_binom n r : 0 <= r <= n → nCr n r = binom (Z.to_nat n) (Z.to_nat r).
Proof.
  intros Hr.
  assert (∃ m, n = Z.of_nat m) as [m ->] by (exists (Z.to_nat n); lia).
  assert (∃ k, r = Z.of_nat k) as [k ->] by (exists (Z.to_nat r); lia).
  rewrite !Nat2Z.id. unfold nCr.
  split_comparisons; try lia;
    try (assert (k = 0%nat ∨ k = m) as [-> | ->] by lia;
         rewrite ?binom_diag, ?binom_0; reflexivity).
  - rewrite <- (Nat2Z.inj_sub m k) by lia.
    rewrite rounded_quotient by lia. apply binom_sym. lia.
  - apply rounded_quotient. lia.
Qed.

Lemma nCr_pos n r : 0 <= r <= n → 0 < nCr n r.
Proof. intros H. rewrite nCr_binom by lia. apply binom_pos. lia. Qed.

Lemma nCr_nonneg n r : 0 <= nCr n r.
Proof.
  destruct (decide (0 <= r <= n)) as [H|H].
  - pose proof (nCr_pos n r H). lia.
  - rewrite nCr_out_of_range by lia. lia.
Qed.

Lemma nCr_zero_iff n r : nCr n r = 0 ↔ r < 0 ∨ n < r.
Proof.
  split; [|apply nCr_out_of_range].
  intros H. destruct (decide (0 <= r <= n)) as [Hr|Hr]; [|lia].
  pose proof (nCr_pos n r Hr). lia.
Qed.

Example nCr_5_2 : nCr 5 2 = 10.
Proof. reflexivity. Qed.

Example nCr_40_5 : nCr 40 5 = 658008.
Proof. vm_compute. reflexivity. Qed.

(** ** The log-space kernel computes the exact combination count *)

Lemma LogSpace_round_int z : LogSpace.Math_round (IZR z) = z.
Proof. unfold LogSpace.Math_round. apply Zfloor_eq. lra. Qed.

Lemma log_sum_product (l : list Z) : ∀ (res : R) (acc : Z),
  Forall (fun i => 0 < i) l → 0 < acc → res = ln (IZR acc) →
  foldl (fun res i => (res + ln (IZR i))%R) res l
  = ln (IZR (foldl (fun res i => res * i) acc l)).
Proof.
  induction l as [|i l IH]; intros res acc Hl Hacc Hres; simpl.
  - exact Hres.
  - inversion Hl; subst. apply IH; [assumption | lia |].
    rewrite mult_IZR, ln_mult; [reflexivity | apply IZR_lt; lia ..].
Qed.

Lemma logFactorial_ln n :
  LogSpace.logFactorial n = ln (IZR (expLogFactorial n)).
Proof.
  unfold LogSpace.logFactorial, expLogFactorial.
  apply log_sum_product; [| lia | now rewrite ln_1].
  apply Forall_forall. intros i Hi. apply loop_2_to_pos in Hi. lia.
Qed.

Lemma expLogFactorial_pos n : 0 < expLogFactorial n.
Proof. rewrite expLogFactorial_Z. apply factorial_pos. Qed.

Lemma exp_log_quotient (n k : nat) : (k <= n)%nat →
  exp (LogSpace.logFactorial (Z.of_nat n) - LogSpace.logFactorial (Z.of_nat k)
       - LogSpace.logFactorial (Z.of_nat n - Z.of_nat k))%R
  = IZR (binom n k).
Proof.
  intros Hk. rewrite !logFactorial_ln.
  pose proof (expLogFactorial_pos (Z.of_nat n)) as Hn.
  pose proof (expLogFactorial_pos (Z.of_nat k)) as Hk'.
  pose proof (expLogFactorial_pos (Z.of_nat n - Z.of_nat k)) as Hnk.
  apply IZR_lt in Hn, Hk', Hnk.
  unfold Rminus. rewrite !exp_plus, !exp_Ropp, !exp_ln by assumption.
  rewrite <- Nat2Z.inj_sub by lia. rewrite !expLogFactorial_factorial.
  rewrite <- Nat2Z.inj_sub, !expLogFactorial_factorial in * by lia.
  rewrite <- (binom_factorial n k Hk), !mult_IZR. field. split; lra.
Qed.

(** The transcription of [nCr] over the reals and the executable [nCr]
    agree on every pair of integers. *)
Theorem LogSpace_nCr_exact n r : LogSpace.nCr n r = nCr n r.
Proof.
  destruct (decide (0 <= r <= n)) as [Hr|Hr].
  - rewrite nCr_binom by lia.
    assert (∃ m, n = Z.of_nat m) as [m ->] by (exists (Z.to_nat n); lia).
    assert (∃ k, r = Z.of_nat k) as [k ->] by (exists (Z.to_nat r); lia).
    rewrite !Nat2Z.id. unfold LogSpace.nCr.
    split_comparisons; try lia;
      try (assert (k = 0%nat ∨ k = m) as [-> | ->] by lia;
           rewrite ?binom_diag, ?binom_0; reflexivity).
    + rewrite <- (Nat2Z.inj_sub m k) by lia.
      rewrite exp_log_quotient by lia. rewrite LogSpace_round_int.
      apply binom_sym. lia.
    + rewrite exp_log_quotient by lia. apply LogSpace_round_int.
  - rewrite nCr_out_of_range by lia. unfold LogSpace.nCr.
    split_comparisons; try reflexivity; lia.
Qed.

(** C8. [nCr(n, r) == nCr(n, n - r)] for all integers [0 <= r <= n], for
    the executable kernel and for its transcription over the reals: after
    the guards, both calls evaluate the same expression on the smaller of
    [r] and [n - r]. *)
Theorem nCr_symmetry (n r : Z) :
  0 <= n → 0 <= r <= n →
  nCr n r = nCr n (n - r) ∧ LogSpace.nCr n r = LogSpace.nCr n (n - r).
Proof.
  intros Hn Hr. split; unfold nCr, LogSpace.nCr.
  - split_comparisons; try lia; try reflexivity;
      first [ reflexivity
            | replace (n - (n - r)) with r by lia; reflexivity
            | assert (n - r = r) as E by lia; rewrite !E; reflexivity ].
  - split_comparisons; try lia; try reflexivity;
      first [ reflexivity
            | replace (n - (n - r)) with r by lia; reflexivity
            | assert (n - r = r) as E by lia; rewrite !E; reflexivity ].
Qed.

Lemma nCr_symmetry_witness :
  nCr 7 2 = nCr 7 (7 - 2) ∧ LogSpace.nCr 7 2 = LogSpace.nCr 7 (7 - 2).
Proof. apply (nCr_symmetry 7 2); lia. Defined.

(** ** Hypergeometric functions *)

Lemma hypergeometric_numerator_zero N K n k :
  n < 0 ∨ N < n → nCr K k * nCr (N - K) (n - k) = 0.
Proof.
  intros H.
  destruct (decide (0 <= k <= K)) as [Hk|Hk].
  - rewrite (nCr_out_of_range (N - K) (n - k)) by lia. lia.
  - rewrite (nCr_out_of_range K k) by lia. lia.
Qed.

(** C1, as the code has it.  [nCr(N, n) == 0] exactly when [n < 0] or
    [n > N]; [hypergeometricPMF] divides without a guard, and whenever
    [nCr(N, n) == 0] the numerator is [0] as well, so that the quotient
    [0 / 0] is [NaN]. *)
Theorem hypergeometricPMF_zero_denominator (N K n k : Z) :
  (nCr N n = 0 ↔ n < 0 ∨ N < n)
  ∧ (nCr N n = 0 → hypergeometricPMF N K n k = NaN).
Proof.
  split; [apply nCr_zero_iff|].
  intros H. unfold hypergeometricPMF. rewrite H.
  rewrite hypergeometric_numerator_zero by (now apply nCr_zero_iff).
  reflexivity.
Qed.

Lemma hypergeometricPMF_zero_denominator_witness :
  nCr 1 2 = 0 ∧ hypergeometricPMF 1 1 2 1 = NaN.
Proof.
  split; [reflexivity|].
  apply (proj2 (hypergeometricPMF_zero_denominator 1 1 2 1)). reflexivity.
Defined.

(** C1 fails as stated: drawing 1 card from an empty population has
    [nCr(0, 1) == 0], and the result is [NaN], not the probability [0]. *)
Lemma hypergeometricPMF_not_zero :
  nCr 0 1 = 0 ∧ hypergeometricPMF 0 0 1 0 = NaN
  ∧ hypergeometricPMF 0 0 1 0 ≠ Fin 0.
Proof. repeat split. discriminate. Qed.

(** ** The threshold check *)

Lemma occurrences_NoDup role roles :
  NoDup roles → occurrences role roles = if bool_decide (role ∈ roles) then 1 else 0.
Proof.
  induction 1 as [|r rest Hr Hrest IH]; [reflexivity|].
  simpl. rewrite IH. rewrite (bool_decide_ext (role ∈ r :: rest) (r = role ∨ role ∈ rest))
    by (rewrite elem_of_cons; split; intros [?|?]; auto).
  destruct (bool_decide_reflect (r = role)), (bool_decide_reflect (role ∈ rest)).
  - subst. contradiction.
  - rewrite bool_decide_eq_true_2 by tauto. lia.
  - rewrite bool_decide_eq_true_2 by tauto. lia.
  - rewrite bool_decide_eq_false_2 by tauto. lia.
Qed.

Lemma tally_roleSum role v mapping :
  Forall NoDup mapping → tally role v mapping = roleSum role v mapping.
Proof.
  intros Hm. revert v. unfold tally, roleSum.
  induction Hm as [|roles mapping Hr Hm IH]; intros [|x v]; simpl; try reflexivity.
  rewrite IH, occurrences_NoDup by assumption. case_bool_decide; lia.
Qed.

Lemma addRoleCount_fold x roles : ∀ (roleCounts : gmap string Z) role,
  foldl (addRoleCount x) roleCounts roles !! role
  = (fun c => c + x * occurrences role roles) <$> roleCounts !! role.
Proof.
  induction roles as [|r rest IH]; intros roleCounts role; simpl.
  - destruct (roleCounts !! role); simpl; f_equal; lia.
  - rewrite IH. unfold addRoleCount.
    destruct (roleCounts !! r) as [c|] eqn:Hr.
    + case_bool_decide as Heq.
      * subst. rewrite lookup_insert_eq, Hr. simpl. f_equal. lia.
      * rewrite lookup_insert_ne by assumption.
        destruct (roleCounts !! role); simpl; f_equal; lia.
    + case_bool_decide as Heq.
      * subst. rewrite Hr. reflexivity.
      * destruct (roleCounts !! role); simpl; f_equal; lia.
Qed.

(** The counting loop of [checkThresholds], from the category [length done]
    on. *)
Lemma count_loop (todo : list Z) : ∀ (done : list Z) (mdone mtodo : list (list string))
    (roleCounts : gmap string Z),
  length done = length mdone → (length todo <= length mtodo)%nat →
  ∃ roleCounts',
    for_each (fun roleCounts i =>
                roles ← (mdone ++ mtodo) !! i;
                Some (foldl (addRoleCount ((done ++ todo) !!! i)) roleCounts roles))
             (seq (length done) (length todo)) roleCounts = Some roleCounts'
    ∧ ∀ role, roleCounts' !! role
              = (fun c => c + tally role todo mtodo) <$> roleCounts !! role.
Proof.
  induction todo as [|x todo IH]; intros done mdone mtodo roleCounts Hlen Hle.
  - exists roleCounts. split; [reflexivity|]. intros role.
    destruct (roleCounts !! role); simpl; f_equal. unfold tally. simpl. lia.
  - destruct mtodo as [|roles mtodo]; [simpl in Hle; lia|].
    simpl in Hle. simpl seq. simpl for_each.
    rewrite (list_lookup_middle mdone mtodo roles (length done) Hlen).
    rewrite (list_lookup_total_middle done todo x (length done) eq_refl). simpl.
    destruct (IH (done ++ [x]) (mdone ++ [roles]) mtodo
                 (foldl (addRoleCount x) roleCounts roles)) as (rc' & Hrun & Hrc').
    { rewrite !length_app. simpl. lia. }
    { lia. }
    rewrite length_app in Hrun. simpl in Hrun.
    rewrite Nat.add_1_r in Hrun. rewrite <- !app_assoc in Hrun. simpl in Hrun.
    exists rc'. split; [exact Hrun|].
    intros role. rewrite Hrc', addRoleCount_fold.
    destruct (roleCounts !! role); simpl; f_equal.
    unfold tally. simpl. lia.
Qed.

Lemma forallb_ext_in {A} (f g : A → bool) (l : list A) :
  (∀ x, x ∈ l → f x = g x) → forallb f l = forallb g l.
Proof.
  induction l as [|x l IH]; intros H; simpl; [reflexivity|].
  rewrite H by left. rewrite IH; [reflexivity|].
  intros y Hy. apply H. now right.
Qed.

Lemma checkThresholds_total v mapping reqs :
  (length v <= length mapping)%nat →
  checkThresholds v mapping reqs = Some (withinThresholds v mapping reqs).
Proof.
  intros Hlen. unfold checkThresholds.
  destruct (count_loop v [] [] mapping ((fun _ => 0) <$> reqs) eq_refl Hlen)
    as (rc' & Hrun & Hrc').
  simpl in Hrun. rewrite Hrun. simpl. f_equal.
  apply forallb_ext_in. intros [role bounds] Hin.
  apply elem_of_map_to_list in Hin.
  rewrite Hrc', lookup_fmap, Hin. simpl. reflexivity.
Qed.

Lemma withinThresholds_spec v mapping reqs :
  withinThresholds v mapping reqs = true
  ↔ ∀ role b, reqs !! role = Some b →
      bound_min b <= tally role v mapping <= bound_max b.
Proof.
  unfold withinThresholds. rewrite forallb_forall. split.
  - intros H role b Hb.
    specialize (H (role, b)). simpl in H.
    rewrite <- list_elem_of_In, elem_of_map_to_list in H.
    specialize (H Hb). apply andb_true_iff in H. lia.
  - intros H [role b] Hin.
    rewrite <- list_elem_of_In, elem_of_map_to_list in Hin.
    specialize (H role b Hin). apply andb_true_iff. lia.
Qed.

Lemma withinThresholds_empty v mapping : withinThresholds v mapping ∅ = true.
Proof. unfold withinThresholds. now rewrite map_to_list_empty. Qed.

(** ** The enumerator and its mutable arrays *)

Section SolveFacts.
Variables (atomToRoles : list (list string)) (thresholds : gmap string Bounds).

(** One call of [solve] at index [length pre] leaves the entries of
    [current] before that index as they are, and pushes the accepted
    completions of that prefix, in order. *)
Lemma solve_pushes (fromIdx : list Z) :
  ∀ (pre later : list Z) (remaining : Z) (vs : list (list Z)),
    length later = length fromIdx →
    (length pre + length fromIdx <= length atomToRoles)%nat →
    ∃ later',
      length later' = length fromIdx
      ∧ solve atomToRoles thresholds fromIdx (length pre) remaining
              {| current := pre ++ later; vectors := vs |}
        = Some {| current := pre ++ later';
                  vectors := vs ++ filter (accepted atomToRoles thresholds)
                                     (app pre <$> compositions fromIdx remaining) |}.
Proof.
  induction fromIdx as [|p rest IH]; intros pre later remaining vs Hlater Hmap.
  - exists later. split; [assumption|]. simpl. now rewrite app_nil_r.
  - destruct rest as [|r rest'].
    + destruct later as [|c [|? ?]]; try discriminate Hlater.
      simpl. destruct (Z.leb_spec remaining p) as [Hle|Hgt].
      * exists [remaining]. split; [reflexivity|].
        rewrite insert_app_r_alt by lia. rewrite Nat.sub_diag. simpl.
        rewrite checkThresholds_total
          by (rewrite length_app; simpl in *; lia).
        simpl. rewrite filter_cons, filter_nil. fold (accepted atomToRoles thresholds (pre ++ [remaining])).
        destruct (decide (accepted atomToRoles thresholds (pre ++ [remaining]))) as [Ha|Ha].
        -- unfold accepted in Ha. rewrite Ha. reflexivity.
        -- unfold accepted in Ha. apply not_true_is_false in Ha. rewrite Ha.
           now rewrite app_nil_r.
      * exists [c]. split; [reflexivity|]. simpl. now rewrite app_nil_r.
    + change (solve atomToRoles thresholds (p :: r :: rest') (length pre) remaining
                {| current := pre ++ later; vectors := vs |})
        with (for_each
                (fun st i =>
                   solve atomToRoles thresholds (r :: rest') (S (length pre))
                         (remaining - i)
                         {| current := <[length pre := i]> (current st);
                            vectors := vectors st |})
                (seqZ 0 (Z.min remaining p + 1))
                {| current := pre ++ later; vectors := vs |}).
      change (compositions (p :: r :: rest') remaining)
        with (seqZ 0 (Z.min remaining p + 1)
                ≫= fun i => cons i <$> compositions (r :: rest') (remaining - i)).
      generalize (seqZ 0 (Z.min remaining p + 1)) as draws.
      intros draws. revert later vs Hlater.
      induction draws as [|i draws IHdraws]; intros later vs Hlater.
      * exists later. split; [assumption|]. simpl. now rewrite app_nil_r.
      * destruct later as [|c later]; [discriminate Hlater|].
        simpl current. simpl vectors.
        destruct (IH (pre ++ [i]) later (remaining - i) vs) as (later1 & Hlen1 & Hrun1).
        { simpl in *. lia. }
        { rewrite length_app. simpl in *. lia. }
        rewrite length_app in Hrun1. simpl length in Hrun1.
        rewrite Nat.add_1_r in Hrun1.
        destruct (IHdraws (i :: later1)
                    (vs ++ filter (accepted atomToRoles thresholds)
                                  (app (pre ++ [i]) <$> compositions (r :: rest') (remaining - i))))
          as (later2 & Hlen2 & Hrun2).
        { simpl in *. lia. }
        exists later2. split; [assumption|].
        cbn [for_each current vectors].
        rewrite insert_app_r_alt by lia. rewrite Nat.sub_diag.
        cbn [insert list_insert].
        rewrite (cons_middle i pre later), app_assoc, Hrun1.
        cbn [mbind option_bind].
        rewrite <- app_assoc, <- cons_middle.
        etransitivity; [exact Hrun2|]. do 2 f_equal.
        rewrite <- app_assoc. f_equal.
        rewrite bind_cons, fmap_app, filter_app. f_equal. f_equal.
        rewrite <- list_fmap_compose. apply list_fmap_ext.
        intros ? v _. simpl. now rewrite <- app_assoc.
Qed.

End SolveFacts.

(** The vectors that [getValidDrawVectors] returns are the accepted
    compositions, in the order of the enumeration, whenever every category
    has a role list. *)
Lemma getValidDrawVectors_compositions pops total targetRoles mapping reqs :
  (length pops <= length mapping)%nat →
  getValidDrawVectors pops total targetRoles mapping reqs
  = Some (filter (accepted mapping reqs) (compositions pops total)).
Proof.
  intros Hlen. unfold getValidDrawVectors.
  destruct (solve_pushes mapping reqs pops [] (replicate (length pops) 0) total [])
    as (later' & _ & Hrun).
  { apply length_replicate. }
  { simpl. lia. }
  simpl in Hrun. rewrite Hrun. simpl. f_equal. f_equal.
  rewrite <- (list_fmap_id (compositions pops total)) at 2.
  apply list_fmap_ext. reflexivity.
Qed.

(** ** The enumerated vectors *)

Lemma compositions_cons p r rest total :
  compositions (p :: r :: rest) total
  = seqZ 0 (Z.min total p + 1) ≫= fun i => cons i <$> compositions (r :: rest) (total - i).
Proof. reflexivity. Qed.

Lemma elem_of_compositions_cons p r rest total v :
  v ∈ compositions (p :: r :: rest) total
  ↔ ∃ i v', v = i :: v' ∧ 0 <= i <= Z.min total p
            ∧ v' ∈ compositions (r :: rest) (total - i).
Proof.
  rewrite compositions_cons, list_elem_of_bind. split.
  - intros (i & Hv & Hi). apply list_elem_of_fmap in Hv as (v' & -> & Hv').
    apply elem_of_seqZ in Hi. exists i, v'. repeat split; [lia | lia | assumption].
  - intros (i & v' & -> & Hi & Hv'). exists i. split.
    + apply list_elem_of_fmap. exists v'. split; [reflexivity | assumption].
    + apply elem_of_seqZ. lia.
Qed.

Lemma elem_of_compositions_last p total v :
  v ∈ compositions [p] total ↔ v = [total] ∧ total <= p.
Proof.
  simpl. destruct (Z.leb_spec total p).
  - rewrite list_elem_of_singleton. tauto.
  - rewrite elem_of_nil. lia.
Qed.

(** Every enumerated vector stays within the populations and has the
    requested sum. *)
Lemma compositions_bounded pops : ∀ total v,
  v ∈ compositions pops total →
  Forall2 (fun x p => x <= p) v pops ∧ foldr Z.add 0 v = total.
Proof.
  induction pops as [|p rest IH]; intros total v Hv.
  - simpl in Hv. now apply elem_of_nil in Hv.
  - destruct rest as [|r rest].
    + apply elem_of_compositions_last in Hv as [-> Hle].
      split; [repeat constructor; assumption | simpl; lia].
    + apply elem_of_compositions_cons in Hv as (i & v' & -> & Hi & Hv').
      apply IH in Hv' as [Hb Hs]. split.
      * constructor; [lia | assumption].
      * simpl. lia.
Qed.

Lemma compositions_nonneg pops : ∀ total v,
  0 <= total → v ∈ compositions pops total → Forall (fun x => 0 <= x) v.
Proof.
  induction pops as [|p rest IH]; intros total v Htotal Hv.
  - simpl in Hv. now apply elem_of_nil in Hv.
  - destruct rest as [|r rest].
    + apply elem_of_compositions_last in Hv as [-> Hle]. repeat constructor. assumption.
    + apply elem_of_compositions_cons in Hv as (i & v' & -> & Hi & Hv').
      constructor; [lia|]. apply (IH (total - i)); [lia | assumption].
Qed.

Lemma sum_nonneg (v : list Z) : Forall (fun x => 0 <= x) v → 0 <= foldr Z.add 0 v.
Proof. induction 1; simpl; lia. Qed.

Lemma compositions_complete pops : ∀ total v,
  pops ≠ [] →
  Forall2 (fun x p => 0 <= x <= p) v pops → foldr Z.add 0 v = total →
  v ∈ compositions pops total.
Proof.
  induction pops as [|p rest IH]; intros total v Hne Hb Hs; [contradiction|].
  inversion Hb as [|x p' v' rest' Hx Hb']; subst.
  destruct rest as [|r rest].
  - inversion Hb'; subst. apply elem_of_compositions_last.
    simpl. split; [f_equal; lia | lia].
  - apply elem_of_compositions_cons. exists x, v'.
    assert (0 <= foldr Z.add 0 v') as Hnn.
    { apply sum_nonneg. eapply Forall2_Forall_l; [exact Hb'|].
      apply Forall_forall. intros ? _ ? ?. lia. }
    simpl. repeat split; try lia.
    apply IH; [discriminate | assumption | lia].
Qed.

Lemma compositions_NoDup pops : ∀ total, NoDup (compositions pops total).
Proof.
  induction pops as [|p rest IH]; intros total.
  - constructor.
  - destruct rest as [|r rest].
    + simpl. destruct (total <=? p); [apply NoDup_singleton | constructor].
    + rewrite compositions_cons. apply NoDup_bind.
      * intros i j v _ _ Hi Hj.
        apply list_elem_of_fmap in Hi as (? & -> & _).
        apply list_elem_of_fmap in Hj as (? & Heq & _). congruence.
      * intros i _. apply NoDup_fmap_2; [|apply IH].
        intros ? ? ?. congruence.
      * apply NoDup_seqZ.
Qed.

(** No vector is enumerated when more cards are requested than the
    categories hold. *)
Lemma compositions_overdraw pops total :
  foldr Z.add 0 pops < total → compositions pops total = [].
Proof.
  intros Hlt. destruct (compositions pops total) as [|v vs] eqn:Hc; [reflexivity|].
  assert (v ∈ compositions pops total) as Hv by (rewrite Hc; left).
  apply compositions_bounded in Hv as [Hb Hs].
  assert (foldr Z.add 0 v <= foldr Z.add 0 pops); [|lia].
  clear -Hb. induction Hb; simpl; lia.
Qed.

(** [solve] pushes nothing, and never reaches the threshold check, when
    there is nothing to enumerate. *)
Lemma solve_nothing mapping reqs (fromIdx : list Z) : ∀ idx remaining st,
  compositions fromIdx remaining = [] →
  ∃ st', solve mapping reqs fromIdx idx remaining st = Some st'
         ∧ vectors st' = vectors st.
Proof.
  induction fromIdx as [|p rest IH]; intros idx remaining st Hnone.
  - exists st. split; reflexivity.
  - destruct rest as [|r rest].
    + simpl in *. destruct (remaining <=? p); [discriminate|].
      exists st. split; reflexivity.
    + rewrite compositions_cons in Hnone.
      change (solve mapping reqs (p :: r :: rest) idx remaining st)
        with (for_each
                (fun st i =>
                   solve mapping reqs (r :: rest) (S idx) (remaining - i)
                         {| current := <[idx := i]> (current st);
                            vectors := vectors st |})
                (seqZ 0 (Z.min remaining p + 1)) st).
      revert st Hnone. generalize (seqZ 0 (Z.min remaining p + 1)) as draws.
      induction draws as [|i draws IHdraws]; intros st Hnone.
      * exists st. split; reflexivity.
      * rewrite bind_cons in Hnone. apply app_eq_nil in Hnone as [Hi Hdraws].
        apply fmap_nil_inv in Hi.
        destruct (IH (S idx) (remaining - i)
                     {| current := <[idx := i]> (current st); vectors := vectors st |} Hi)
          as (st1 & Hrun1 & Hvs1).
        destruct (IHdraws st1 Hdraws) as (st2 & Hrun2 & Hvs2).
        exists st2. split.
        -- cbn [for_each]. rewrite Hrun1. exact Hrun2.
        -- rewrite Hvs2, Hvs1. reflexivity.
Qed.

Lemma accepted_valid pops total mapping reqs v :
  Forall NoDup mapping →
  v ∈ filter (accepted mapping reqs) (compositions pops total)
  ↔ v ∈ compositions pops total
    ∧ ∀ role b, reqs !! role = Some b →
        bound_min b <= roleSum role v mapping <= bound_max b.
Proof.
  intros Hm. rewrite list_elem_of_filter. unfold accepted.
  rewrite withinThresholds_spec.
  split; intros [H1 H2].
  - split; [exact H2|]. intros role b Hb.
    rewrite <- tally_roleSum by assumption. now apply H1.
  - split; [|exact H1]. intros role b Hb.
    rewrite tally_roleSum by assumption. now apply H2.
Qed.

Lemma filter_no_thresholds mapping (l : list (list Z)) :
  filter (accepted mapping ∅) l = l.
Proof.
  induction l as [|v l IH]; [reflexivity|].
  rewrite filter_cons_True by apply withinThresholds_empty. now rewrite IH.
Qed.

(** C4. For a non-empty list of categories, a draw count [>= 0] and one
    duplicate-free role list per category, [getValidDrawVectors] returns
    without exception a list without repetition whose members are exactly
    the vectors [v] with [0 <= v[i] <= populationCounts[i]], of sum
    [totalDraws], in which every thresholded role has its sum (a category
    counting in full for each of its roles) within [min, max].  For
    [populationCounts = [2,2]], [totalDraws = 2] and no threshold the result
    is [[0,2], [1,1], [2,0]]. *)
Theorem getValidDrawVectors_exact :
  (∀ (populationCounts : list Z) (totalDraws : Z) (targetRoles : list string)
     (atomToRoles : list (list string)) (thresholds : gmap string Bounds),
     populationCounts ≠ [] →
     Forall (fun p => 0 <= p) populationCounts →
     0 <= totalDraws →
     length atomToRoles = length populationCounts →
     Forall NoDup atomToRoles →
     ∃ vs,
       getValidDrawVectors populationCounts totalDraws targetRoles atomToRoles thresholds
       = Some vs
       ∧ NoDup vs
       ∧ ∀ v, v ∈ vs
              ↔ validDrawVector populationCounts totalDraws atomToRoles thresholds v)
  ∧ (∀ (targetRoles roles0 roles1 : list string),
       getValidDrawVectors [2; 2] 2 targetRoles [roles0; roles1] ∅
       = Some [[0; 2]; [1; 1]; [2; 0]]).
Proof.
  split.
  - intros pops total targetRoles mapping reqs Hne _ Htotal Hlen Hm.
    exists (filter (accepted mapping reqs) (compositions pops total)).
    split; [apply getValidDrawVectors_compositions; lia|].
    split; [apply NoDup_filter, compositions_NoDup|].
    intros v. rewrite accepted_valid by assumption. unfold validDrawVector.
    split.
    + intros [Hv Hthr].
      pose proof (compositions_bounded _ _ _ Hv) as [Hb Hs].
      pose proof (compositions_nonneg _ _ _ Htotal Hv) as Hnn.
      split; [|split; assumption].
      clear -Hb Hnn. induction Hb; [constructor|].
      inversion Hnn; subst. constructor; [lia | auto].
    + intros (Hb & Hs & Hthr). split; [|assumption].
      now apply compositions_complete.
  - intros targetRoles roles0 roles1.
    rewrite getValidDrawVectors_compositions by (simpl; lia).
    rewrite filter_no_thresholds. reflexivity.
Qed.

Lemma getValidDrawVectors_exact_witness :
  ∃ vs,
    getValidDrawVectors [3; 1] 2 [] [["A"]; ["Brick"]]%string
                        {[ "Brick"%string := {| bound_min := 0; bound_max := 0 |} ]}
    = Some vs
    ∧ NoDup vs
    ∧ ∀ v, v ∈ vs
           ↔ validDrawVector [3; 1] 2 [["A"]; ["Brick"]]%string
               {[ "Brick"%string := {| bound_min := 0; bound_max := 0 |} ]} v.
Proof.
  apply (proj1 getValidDrawVectors_exact).
  - discriminate.
  - repeat constructor; lia.
  - lia.
  - reflexivity.
  - repeat constructor; set_solver.
Defined.

Example getValidDrawVectors_brick_filter :
  getValidDrawVectors [3; 1] 2 [] [["A"]; ["Brick"]]%string
                      {[ "Brick"%string := {| bound_min := 0; bound_max := 0 |} ]}
  = Some [[2; 0]].
Proof. vm_compute. reflexivity. Qed.

(** C5. When [totalDraws] exceeds the sum of [populationCounts], whatever
    the counts, the role lists and the thresholds, [getValidDrawVectors]
    returns the empty list, and the event probability, the sum over the
    returned vectors, is [0]. *)
Theorem getValidDrawVectors_overdraw (populationCounts : list Z) (totalDraws : Z)
    (targetRoles : list string) (atomToRoles : list (list string))
    (thresholds : gmap string Bounds) (totalDeck : Z) :
  foldr Z.add 0 populationCounts < totalDraws →
  getValidDrawVectors populationCounts totalDraws targetRoles atomToRoles thresholds
  = Some []
  ∧ eventProbability populationCounts totalDraws targetRoles atomToRoles thresholds
                     totalDeck
    = Some (Fin 0).
Proof.
  intros Hlt.
  assert (getValidDrawVectors populationCounts totalDraws targetRoles atomToRoles
                              thresholds = Some []) as Hnone.
  { unfold getValidDrawVectors.
    destruct (solve_nothing atomToRoles thresholds populationCounts 0%nat totalDraws
                {| current := replicate (length populationCounts) 0; vectors := [] |}
                (compositions_overdraw _ _ Hlt)) as (st' & Hrun & Hvs).
    rewrite Hrun. simpl. now rewrite Hvs. }
  split; [exact Hnone|].
  unfold eventProbability. rewrite Hnone. reflexivity.
Qed.

Lemma getValidDrawVectors_overdraw_witness :
  getValidDrawVectors [2; 2] 5 [] [[]; []] ∅ = Some []
  ∧ eventProbability [2; 2] 5 [] [[]; []] ∅ 4 = Some (Fin 0).
Proof. apply (getValidDrawVectors_overdraw [2; 2] 5 [] [[]; []] ∅ 4). simpl. lia. Defined.

(** C9. With no category at all [getValidDrawVectors] returns the empty
    list for every draw count, [0] included (the empty vector is not
    returned), and every role list and threshold map; the event probability
    of a deck without categories is therefore [0]. *)
Theorem getValidDrawVectors_no_categories (totalDraws : Z)
    (targetRoles : list string) (atomToRoles : list (list string))
    (thresholds : gmap string Bounds) (totalDeck : Z) :
  getValidDrawVectors [] totalDraws targetRoles atomToRoles thresholds = Some []
  ∧ getValidDrawVectors [] 0 targetRoles atomToRoles thresholds ≠ Some [[]]
  ∧ eventProbability [] totalDraws targetRoles atomToRoles thresholds totalDeck
    = Some (Fin 0).
Proof. repeat split. discriminate. Qed.

(** ** The probability composition layer *)

Lemma atomToRoles_length s : length (atomToRoles s) = length (populationCounts s).
Proof.
  unfold atomToRoles, populationCounts. rewrite !length_app, !length_fmap.
  destruct (0 <? remainingCards s); reflexivity.
Qed.

(** [baseProb] never throws: the role lists are built alongside the
    counts. *)
Lemma baseProb_total s drawCount reqs :
  baseProb s drawCount reqs
  = Some (foldl (fun totalProb v =>
                   (totalProb
                    + multivariateHypergeometricPMF (populationCounts s) v
                                                    (deckSize s) drawCount)%num)
                (Fin 0)
                (filter (accepted (atomToRoles s) reqs)
                        (compositions (populationCounts s) drawCount))).
Proof.
  unfold baseProb, eventProbability.
  rewrite getValidDrawVectors_compositions by (rewrite atomToRoles_length; lia).
  reflexivity.
Qed.

Lemma calculateStepProb_run_guarded s drawCount condition forceMulligan :
  drawCount <= 0 ∨ deckSize s <= 0 →
  calculateStepProb_run s drawCount condition forceMulligan
  = Some {| returned := Fin 0; enumerations := 0; mulliganApplied := false |}.
Proof.
  intros H. unfold calculateStepProb_run.
  assert ((drawCount <=? 0) || (deckSize s <=? 0) = true) as ->.
  { apply orb_true_iff. rewrite !Z.leb_le. exact H. }
  reflexivity.
Qed.

(** C10. [calculateStepProb] returns [0] as soon as [drawCount <= 0] or
    [deckSize <= 0], for every condition, mulligan configuration and
    [forceMulligan]: that run calls the enumerator zero times and does not
    take the mulligan branch. *)
Theorem calculateStepProb_guard (s : AppState) (drawCount : Z)
    (condition : CompoundCondition) (forceMulligan : option bool) :
  drawCount <= 0 ∨ deckSize s <= 0 →
  calculateStepProb s drawCount condition forceMulligan = Some (Fin 0)
  ∧ calculateStepProb_run s drawCount condition forceMulligan
    = Some {| returned := Fin 0; enumerations := 0; mulliganApplied := false |}.
Proof.
  intros H. unfold calculateStepProb.
  rewrite calculateStepProb_run_guarded by assumption. split; reflexivity.
Qed.

Lemma calculateStepProb_guard_witness :
  calculateStepProb sampleState 0 noBrick None = Some (Fin 0)
  ∧ calculateStepProb_run sampleState 0 noBrick None
    = Some {| returned := Fin 0; enumerations := 0; mulliganApplied := false |}.
Proof. apply (calculateStepProb_guard sampleState 0 noBrick None). left. lia. Defined.

(** C3 fails as stated in two places.  With [forceMulligan] set the opening
    hand of an enabled mulligan is not adjusted: here [rawProb] and
    [probKeep] are both [1/2], the claim gives [3/4], the code [1/2].  With
    a draw count of [0] (an opening hand of no card, mulligan disabled) the
    code returns [0], where the event probability of "no Brick" is [1]. *)
Lemma calculateStepProb_not_always_adjusted :
  (enabled (mulligan sampleState) = true
   ∧ 1 = baseDraws sampleState
   ∧ baseProb sampleState 1 (thresholdsOf needsStarter) = Some (Fin (1 # 2))
   ∧ calculateStepProb sampleState 1 needsStarter (Some true) = Some (Fin (1 # 2))
   ∧ calculateStepProb sampleState 1 needsStarter None
     = Some (Fin (1 # 2) + (Fin 1 - Fin (1 # 2)) * Fin (1 # 2))%num
   ∧ ¬ same_number (Fin (1 # 2)) (Fin (1 # 2) + (Fin 1 - Fin (1 # 2)) * Fin (1 # 2))%num)
  ∧ (let s := {| selectedTCG := CUSTOM; deckSize := 2; startHand := 0;
                 isGoingSecond := false;
                 mulligan := {| enabled := false; type := mulligan_none;
                                keepRole := "Starter"; keepMin := 1;
                                maxMulligans := 1 |};
                 atoms := atoms sampleState |} in
     0 = baseDraws s
     ∧ baseProb s 0 (thresholdsOf noBrick) = Some (Fin 1)
     ∧ calculateStepProb s 0 noBrick None = Some (Fin 0)).
Proof.
  split.
  - repeat split; try (vm_compute; reflexivity).
    vm_compute. discriminate.
  - repeat split; vm_compute; reflexivity.
Qed.

(** C3, as the code has it.  Past the guard ([drawCount > 0] and
    [deckSize > 0]) no call throws; with the mulligan enabled, the draw count
    at the opening-hand baseline and [forceMulligan] not set, the result is
    [rawProb + (1 - probKeep) * rawProb], with [probKeep] the event
    probability of [keepRole] in [[keepMin, deckSize]]; in every other case
    it is [rawProb].  At [rawProb = 0.7] and [probKeep = 0.4] the formula
    gives [1.12]. *)
Theorem calculateStepProb_mulligan :
  (∀ (s : AppState) (drawCount : Z) (condition : CompoundCondition)
     (forceMulligan : option bool),
     0 < drawCount → 0 < deckSize s →
     ∃ rawProb probKeep,
       baseProb s drawCount (thresholdsOf condition) = Some rawProb
       ∧ baseProb s drawCount
                  {[ keepRole (mulligan s) :=
                       {| bound_min := keepMin (mulligan s);
                          bound_max := deckSize s |} ]} = Some probKeep
       ∧ (enabled (mulligan s) = true →
          drawCount = startHand s
                      + (if isGoingSecond s && drawOnTurnOneSecond (currentPreset s)
                         then 1 else 0) →
          forceMulligan ≠ Some true →
          calculateStepProb s drawCount condition forceMulligan
          = Some (rawProb + (Fin 1 - probKeep) * rawProb)%num)
       ∧ (enabled (mulligan s) = false
          ∨ drawCount ≠ startHand s
                        + (if isGoingSecond s && drawOnTurnOneSecond (currentPreset s)
                           then 1 else 0)
          ∨ forceMulligan = Some true →
          calculateStepProb s drawCount condition forceMulligan = Some rawProb))
  ∧ same_number (Fin (7 # 10) + (Fin 1 - Fin (4 # 10)) * Fin (7 # 10))%num
                (Fin (112 # 100)).
Proof.
  split; [|reflexivity].
  intros s drawCount condition forceMulligan Hd Hs.
  rewrite !baseProb_total. eexists _, _. split; [reflexivity|]. split; [reflexivity|].
  unfold calculateStepProb, calculateStepProb_run.
  assert ((drawCount <=? 0) || (deckSize s <=? 0) = false) as ->.
  { apply orb_false_iff. rewrite !Z.leb_gt. lia. }
  rewrite !baseProb_total. cbn [mbind option_bind]. fold (baseDraws s).
  split.
  - intros -> Hopen Hforce.
    rewrite bool_decide_eq_true_2 by exact Hopen.
    destruct forceMulligan as [[|]|]; [congruence | reflexivity | reflexivity].
  - intros [Hoff | [Hother | ->]].
    + rewrite Hoff. reflexivity.
    + rewrite (bool_decide_eq_false_2 _ Hother), andb_false_r. reflexivity.
    + simpl. rewrite andb_false_r. reflexivity.
Qed.

Lemma calculateStepProb_mulligan_witness :
  ∃ rawProb probKeep,
    baseProb sampleState 1 (thresholdsOf needsStarter) = Some rawProb
    ∧ baseProb sampleState 1
               {[ "Starter"%string := {| bound_min := 1; bound_max := 2 |} ]}
      = Some probKeep
    ∧ calculateStepProb sampleState 1 needsStarter None
      = Some (rawProb + (Fin 1 - probKeep) * rawProb)%num
    ∧ calculateStepProb sampleState 1 needsStarter (Some true) = Some rawProb.
Proof.
  destruct (proj1 calculateStepProb_mulligan sampleState 1 needsStarter None)
    as (rawProb & probKeep & Hraw & Hkeep & Hadj & _); [lia | simpl; lia |].
  destruct (proj1 calculateStepProb_mulligan sampleState 1 needsStarter (Some true))
    as (rawProb' & _ & Hraw' & _ & _ & Hplain); [lia | simpl; lia |].
  exists rawProb, probKeep. repeat split.
  - exact Hraw.
  - exact Hkeep.
  - apply Hadj; [reflexivity | reflexivity | discriminate].
  - rewrite Hraw in Hraw'. injection Hraw' as <-. apply Hplain. right. right. reflexivity.
Defined.

(** ** The match and tournament aggregator *)

(** C7. With one probability [p] for every game the best-of-3 formula of
    [tournamentAnalysis], and the one of the earlier [tournamentResults],
    reduce to [p * p * (3 - 2 * p)], for every rational [p] and so for every
    [p] in [[0, 1]]; at [p = 0.6] the value is [0.648]. *)
Theorem bo3_uniform (p : Q) :
  same_number (P_match (Fin p) (Fin p) (Fin p) (Fin p)) (Fin (p * p * (3 - 2 * p)))
  ∧ same_number (pMatch (Fin p) (Fin p) (Fin p)) (Fin (p * p * (3 - 2 * p)))
  ∧ same_number (P_match (Fin (6 # 10)) (Fin (6 # 10)) (Fin (6 # 10)) (Fin (6 # 10)))
                (Fin (648 # 1000)).
Proof.
  repeat split; simpl; try ring.
Qed.

(** ** The Swiss round distribution, in double arithmetic *)














(** ** Vandermonde's identity over the enumeration *)

Lemma sumZ_ext (f g : nat → Z) n :
  (∀ k, (k < n)%nat → f k = g k) → sumZ f n = sumZ g n.
Proof.
  induction n as [|n IH]; intros H; simpl; [reflexivity|].
  rewrite IH by (intros; apply H; lia). rewrite (H n) by lia. reflexivity.
Qed.

Lemma sumZ_plus (f g : nat → Z) n :
  sumZ (fun k => f k + g k) n = sumZ f n + sumZ g n.
Proof. induction n as [|n IH]; simpl; lia. Qed.

Lemma sumZ_shift (f : nat → Z) n :
  sumZ f (S n) = f O + sumZ (fun k => f (S k)) n.
Proof. induction n as [|n IH]; [simpl; lia|]. simpl in *. lia. Qed.

Lemma sumZ_zero_tail (f : nat → Z) n m :
  (n <= m)%nat → (∀ k, (n <= k < m)%nat → f k = 0) → sumZ f m = sumZ f n.
Proof.
  intros Hnm. induction Hnm as [|m Hnm IH]; intros Hz; [reflexivity|].
  simpl. rewrite Hz by lia. rewrite IH by (intros; apply Hz; lia). lia.
Qed.

Lemma binom_succ n k : binom (S n) (S k) = binom n k + binom n (S k).
Proof. reflexivity. Qed.

(** Vandermonde's convolution. *)
Lemma vandermonde p m : ∀ d,
  sumZ (fun i => binom p i * binom m (d - i)) (S d) = binom (p + m) d.
Proof.
  induction p as [|p IH]; intros d.
  - rewrite sumZ_shift. rewrite Nat.sub_0_r.
    rewrite (sumZ_ext _ (fun _ => 0)) by (intros; simpl; lia).
    replace (sumZ (fun _ => 0) d) with 0 by (clear; induction d; simpl; lia).
    simpl. lia.
  - destruct d as [|d].
    + simpl. rewrite !binom_0. lia.
    + rewrite sumZ_shift.
      rewrite (sumZ_ext _ (fun k => binom p k * binom m (d - k)
                                    + binom p (S k) * binom m (S d - S k))).
      2:{ intros k _. rewrite binom_succ. simpl "-"%nat. lia. }
      rewrite sumZ_plus, IH.
      pose proof (IH (S d)) as IH'. rewrite sumZ_shift in IH'.
      rewrite !binom_0 in *. rewrite Nat.sub_0_r in *.
      change (S p + m)%nat with (S (p + m)). rewrite binom_succ. lia.
Qed.

Lemma nCr_binom_nonneg n r :
  0 <= n → 0 <= r → nCr n r = binom (Z.to_nat n) (Z.to_nat r).
Proof.
  intros Hn Hr. destruct (decide (r <= n)).
  - apply nCr_binom. lia.
  - rewrite nCr_out_of_range by lia. rewrite binom_gt by lia. reflexivity.
Qed.

Lemma sumOver_app {A} (f : A → Z) l1 l2 :
  sumOver f (l1 ++ l2) = sumOver f l1 + sumOver f l2.
Proof. unfold sumOver. induction l1 as [|x l1 IH]; simpl; [reflexivity|]. rewrite IH. lia. Qed.

Lemma sumOver_fmap {A B} (f : B → Z) (g : A → B) l :
  sumOver f (g <$> l) = sumOver (fun x => f (g x)) l.
Proof. unfold sumOver. induction l as [|x l IH]; csimpl; [reflexivity|]. now rewrite IH. Qed.

Lemma sumOver_bind {A B} (f : B → Z) (g : A → list B) l :
  sumOver f (l ≫= g) = sumOver (fun x => sumOver f (g x)) l.
Proof.
  induction l as [|x l IH]; [reflexivity|].
  rewrite bind_cons, sumOver_app, IH. reflexivity.
Qed.

Lemma sumOver_ext_in {A} (f g : A → Z) l :
  (∀ x, x ∈ l → f x = g x) → sumOver f l = sumOver g l.
Proof.
  unfold sumOver. induction l as [|x l IH]; intros H; simpl; [reflexivity|].
  rewrite H by left. rewrite IH; [reflexivity|]. intros y Hy. apply H. now right.
Qed.

Lemma sumOver_scale {A} (c : Z) (f : A → Z) l :
  sumOver (fun x => c * f x) l = c * sumOver f l.
Proof. unfold sumOver. induction l as [|x l IH]; simpl; [lia|]. rewrite IH. lia. Qed.

Lemma sumOver_seqZ (f : Z → Z) (n : nat) :
  sumOver f (seqZ 0 (Z.of_nat n)) = sumZ (fun k => f (Z.of_nat k)) n.
Proof.
  induction n as [|n IH]; [reflexivity|].
  rewrite seqZ_S, sumOver_app, IH. simpl. rewrite Z.add_0_l. lia.
Qed.

(** The ways to draw [d] cards from the categories, summed over the
    enumeration, are the ways to draw [d] cards from the whole deck. *)
Lemma compositions_ways pops : ∀ d,
  pops ≠ [] → Forall (fun p => 0 <= p) pops → 0 <= d →
  sumOver (ways pops) (compositions pops d) = nCr (foldr Z.add 0 pops) d.
Proof.
  induction pops as [|p rest IH]; intros d Hne Hpos Hd; [contradiction|].
  inversion Hpos as [|? ? Hp Hrest]; subst.
  destruct rest as [|r rest].
  - simpl. rewrite Z.add_0_r. destruct (Z.leb_spec d p).
    + simpl. unfold ways. simpl. lia.
    + simpl. rewrite nCr_out_of_range by lia. reflexivity.
  - rewrite compositions_cons, sumOver_bind.
    rewrite (sumOver_ext_in _ (fun i => nCr p i * nCr (foldr Z.add 0 (r :: rest)) (d - i))).
    2:{ intros i Hi. apply elem_of_seqZ in Hi. rewrite sumOver_fmap.
        change (fun x => ways (p :: r :: rest) (i :: x))
          with (fun x => nCr p i * ways (r :: rest) x).
        rewrite sumOver_scale, IH by (try discriminate; try assumption; lia).
        reflexivity. }
    set (m := foldr Z.add 0 (r :: rest)).
    assert (0 <= m) as Hm by (subst m; apply sum_nonneg; assumption).
    change (foldr Z.add 0 (p :: r :: rest)) with (p + m).
    replace (Z.min d p + 1) with (Z.of_nat (S (Z.to_nat (Z.min d p)))) by lia.
    rewrite sumOver_seqZ.
    rewrite (sumZ_ext _ (fun i => binom (Z.to_nat p) i * binom (Z.to_nat m) (Z.to_nat d - i))).
    2:{ intros k Hk. rewrite !nCr_binom_nonneg by lia.
        rewrite Nat2Z.id. do 3 f_equal. lia. }
    rewrite nCr_binom_nonneg by lia.
    rewrite Z2Nat.inj_add by lia.
    rewrite <- vandermonde. symmetry. apply sumZ_zero_tail; [lia|].
    intros k Hk. rewrite (binom_gt (Z.to_nat p) k) by lia. lia.
Qed.

(** ** The range of [calculateStepProb] *)




(** * Further properties of the probability engine *)

(** ** Hypergeometric functions *)

(** X5. With two categories, the [K] successes and the [N - K] others, the
    multivariate probability of drawing [k] and [n - k] is the univariate
    [hypergeometricPMF], for all integers, the unguarded division
    included. *)
Theorem multivariate_two_categories (N K n k : Z) :
  multivariateHypergeometricPMF [K; N - K] [k; n - k] N n
  = hypergeometricPMF N K n k.
Proof.
  unfold multivariateHypergeometricPMF, hypergeometricPMF.
  rewrite bool_decide_eq_false_2 by (simpl; lia).
  simpl. replace (1 * nCr K k * nCr (N - K) (n - k)) with (nCr K k * nCr (N - K) (n - k)) by lia.
  reflexivity.
Qed.

(** ** The enumerator and the event probability *)

Lemma hands_ways pops : ∀ v,
  Forall2 (fun x p => 0 <= x <= p) v pops → hands pops v = ways pops v.
Proof.
  unfold hands, ways. induction pops as [|p pops IH]; intros v Hv.
  - inversion Hv; subst. reflexivity.
  - inversion Hv as [|x ? v' ? Hx Hrest]; subst. simpl.
    rewrite IH by assumption. rewrite nCr_binom by lia. reflexivity.
Qed.

(** X6. Without thresholds the enumeration covers every hand once: for
    non-empty non-negative category counts of sum [N], a role list for every
    category and [0 <= totalDraws], [getValidDrawVectors] returns vectors
    whose numbers of hands (a vector [v] standing for the product of the
    binomial coefficients of [populationCounts[i]] over [v[i]]) add up to
    the binomial coefficient of [N] over [totalDraws], the number of hands
    of the whole deck.  Integers only: the coefficients are the mathematical
    ones, not the values of [nCr]. *)
Theorem getValidDrawVectors_covers_all_hands (populationCounts : list Z)
    (totalDraws : Z) (targetRoles : list string) (atomToRoles : list (list string)) :
  populationCounts ≠ [] →
  Forall (fun p => 0 <= p) populationCounts →
  0 <= totalDraws →
  (length populationCounts <= length atomToRoles)%nat →
  ∃ vectors,
    getValidDrawVectors populationCounts totalDraws targetRoles atomToRoles ∅
    = Some vectors
    ∧ sumOver (hands populationCounts) vectors
      = binom (Z.to_nat (foldr Z.add 0 populationCounts)) (Z.to_nat totalDraws).
Proof.
  intros Hne Hpos Hd Hlen.
  rewrite getValidDrawVectors_compositions by assumption.
  rewrite filter_no_thresholds. eexists. split; [reflexivity|].
  rewrite (sumOver_ext_in _ (ways populationCounts)).
  - rewrite compositions_ways by assumption.
    apply nCr_binom_nonneg; [|assumption]. now apply sum_nonneg.
  - intros v Hv. apply hands_ways.
    pose proof (compositions_bounded _ _ _ Hv) as [Hb _].
    pose proof (compositions_nonneg _ _ _ Hd Hv) as Hn.
    clear -Hb Hn. induction Hb as [|x p v pops Hx Hb IH]; constructor.
    + inversion Hn; subst. lia.
    + apply IH. now inversion Hn.
Qed.

Lemma getValidDrawVectors_covers_all_hands_witness :
  ∃ vectors,
    getValidDrawVectors [12; 3; 25] 5 DEFAULT_ROLES [["Starter"]; ["Brick"]; []]%string ∅
    = Some vectors
    ∧ sumOver (hands [12; 3; 25]) vectors
      = binom (Z.to_nat (foldr Z.add 0 [12; 3; 25])) (Z.to_nat 5).
Proof.
  apply (getValidDrawVectors_covers_all_hands [12; 3; 25] 5 DEFAULT_ROLES
           [["Starter"]; ["Brick"]; []]%string).
  - discriminate.
  - repeat constructor; lia.
  - lia.
  - simpl. lia.
Defined.

Lemma for_each_fails {A S} (body : S → A → option S) (l : list A) (x : A) :
  x ∈ l → (∀ st, body st x = None) → ∀ st, for_each body l st = None.
Proof.
  intros Hx Hfail. induction l as [|y l IH]; intros st; [now apply elem_of_nil in Hx|].
  simpl. apply elem_of_cons in Hx as [->|Hx].
  - now rewrite Hfail.
  - destruct (body st y); [apply IH; assumption | reflexivity].
Qed.

Lemma checkThresholds_short (vector : list Z) (mapping : list (list string))
    (reqs : gmap string Bounds) :
  (length mapping < length vector)%nat → checkThresholds vector mapping reqs = None.
Proof.
  intros Hlt. unfold checkThresholds.
  rewrite (for_each_fails _ _ (length mapping)); [reflexivity | |].
  - apply elem_of_seq. lia.
  - intros st. rewrite (lookup_ge_None_2 mapping (length mapping)) by lia.
    reflexivity.
Qed.

(** X7. [checkThresholds] throws exactly when the vector has an entry for
    which [mapping] has no role list; otherwise it returns a boolean. *)
Theorem checkThresholds_throws_iff (vector : list Z) (mapping : list (list string))
    (reqs : gmap string Bounds) :
  checkThresholds vector mapping reqs = None
  ↔ (length mapping < length vector)%nat.
Proof.
  split.
  - intros Hnone. destruct (decide (length vector <= length mapping)%nat) as [Hle|]; [|lia].
    rewrite checkThresholds_total in Hnone by assumption. discriminate.
  - apply checkThresholds_short.
Qed.

(** X8. [checkThresholds] counts a category once for every time a role is
    listed in its role list: the vector is accepted exactly when, for every
    thresholded role, the sum of [vector[i]] times the number of occurrences
    of the role in [mapping[i]] lies within the bounds.  Roles without a
    threshold are ignored. *)
Theorem checkThresholds_multiplicity (vector : list Z) (mapping : list (list string))
    (reqs : gmap string Bounds) :
  (length vector <= length mapping)%nat →
  ∃ ok, checkThresholds vector mapping reqs = Some ok
        ∧ (ok = true
           ↔ ∀ role b, reqs !! role = Some b →
               bound_min b
               <= foldr Z.add 0
                    (zip_with (fun x roles => x * occurrences role roles) vector mapping)
               <= bound_max b).
Proof.
  intros Hlen. exists (withinThresholds vector mapping reqs).
  split; [now apply checkThresholds_total|]. apply withinThresholds_spec.
Qed.

Lemma checkThresholds_multiplicity_witness :
  ∃ ok, checkThresholds [2; 1] [["Starter"; "Starter"]; ["Brick"]]%string
                        {[ "Starter"%string := {| bound_min := 4; bound_max := 4 |} ]}
        = Some ok
        ∧ (ok = true
           ↔ ∀ role b,
               ({[ "Starter"%string := {| bound_min := 4; bound_max := 4 |} ]}
                  : gmap string Bounds) !! role = Some b →
               bound_min b
               <= foldr Z.add 0
                    (zip_with (fun x roles => x * occurrences role roles) [2; 1]
                              [["Starter"; "Starter"]; ["Brick"]]%string)
               <= bound_max b).
Proof.
  apply (checkThresholds_multiplicity [2; 1] [["Starter"; "Starter"]; ["Brick"]]%string).
  simpl. lia.
Defined.

Example checkThresholds_counts_twice :
  checkThresholds [2; 1] [["Starter"; "Starter"]; ["Brick"]]%string
                  {[ "Starter"%string := {| bound_min := 4; bound_max := 4 |} ]}
  = Some true.
Proof. vm_compute. reflexivity. Qed.

Lemma solve_keeps_length mapping reqs (fromIdx : list Z) : ∀ idx remaining st st',
  solve mapping reqs fromIdx idx remaining st = Some st' →
  length (current st') = length (current st).
Proof.
  induction fromIdx as [|p rest IH]; intros idx remaining st st' Hrun.
  - simpl in Hrun. now injection Hrun as <-.
  - destruct rest as [|r rest].
    + simpl in Hrun. destruct (remaining <=? p).
      * destruct (checkThresholds _ mapping reqs); simpl in Hrun; [|discriminate].
        injection Hrun as <-. simpl. apply length_insert.
      * now injection Hrun as <-.
    + change (solve mapping reqs (p :: r :: rest) idx remaining st)
        with (for_each
                (fun st i =>
                   solve mapping reqs (r :: rest) (S idx) (remaining - i)
                         {| current := <[idx := i]> (current st);
                            vectors := vectors st |})
                (seqZ 0 (Z.min remaining p + 1)) st) in Hrun.
      revert st Hrun. generalize (seqZ 0 (Z.min remaining p + 1)) as draws.
      induction draws as [|i draws IHdraws]; intros st Hrun.
      * simpl in Hrun. now injection Hrun as <-.
      * cbn [for_each] in Hrun.
        destruct (solve mapping reqs (r :: rest) (S idx) (remaining - i) _) as [st1|] eqn:H1;
          [|discriminate].
        cbn [mbind option_bind] in Hrun.
        apply IH in H1. simpl in H1. rewrite length_insert in H1.
        rewrite <- H1. now apply IHdraws.
Qed.

(** A completed vector reaches the threshold check, which throws when the
    role lists are too few. *)
Lemma solve_throws mapping reqs (fromIdx : list Z) : ∀ idx remaining st,
  (length mapping < length (current st))%nat →
  compositions fromIdx remaining ≠ [] →
  solve mapping reqs fromIdx idx remaining st = None.
Proof.
  induction fromIdx as [|p rest IH]; intros idx remaining st Hshort Hsome.
  - contradiction.
  - destruct rest as [|r rest].
    + simpl in *. destruct (remaining <=? p); [|contradiction].
      rewrite checkThresholds_short; [reflexivity | now rewrite length_insert].
    + rewrite compositions_cons in Hsome.
      change (solve mapping reqs (p :: r :: rest) idx remaining st)
        with (for_each
                (fun st i =>
                   solve mapping reqs (r :: rest) (S idx) (remaining - i)
                         {| current := <[idx := i]> (current st);
                            vectors := vectors st |})
                (seqZ 0 (Z.min remaining p + 1)) st).
      revert st Hshort Hsome. generalize (seqZ 0 (Z.min remaining p + 1)) as draws.
      induction draws as [|i draws IHdraws]; intros st Hshort Hsome; [contradiction|].
      cbn [for_each].
      destruct (decide (compositions (r :: rest) (remaining - i) = [])) as [Hnone|Hhere].
      * rewrite bind_cons, Hnone in Hsome. simpl in Hsome.
        destruct (solve mapping reqs (r :: rest) (S idx) (remaining - i) _) as [st1|] eqn:H1;
          [|reflexivity].
        cbn [mbind option_bind]. apply IHdraws; [|assumption].
        apply solve_keeps_length in H1. simpl in H1. rewrite length_insert in H1.
        now rewrite H1.
      * rewrite IH; [reflexivity | simpl; now rewrite length_insert | assumption].
Qed.

(** Some vector is enumerated as soon as the categories hold enough
    cards. *)
Lemma compositions_exist pops : ∀ total,
  pops ≠ [] → Forall (fun p => 0 <= p) pops →
  0 <= total <= foldr Z.add 0 pops →
  compositions pops total ≠ [].
Proof.
  induction pops as [|p rest IH]; intros total Hne Hpos Htotal; [contradiction|].
  inversion Hpos as [|? ? Hp Hrest]; subst.
  destruct rest as [|r rest].
  - simpl in *. destruct (Z.leb_spec total p); [discriminate | lia].
  - rewrite compositions_cons.
    assert (0 <= foldr Z.add 0 (r :: rest)) as Hm by (apply sum_nonneg; assumption).
    change (foldr Z.add 0 (p :: r :: rest)) with (p + foldr Z.add 0 (r :: rest)) in Htotal.
    specialize (IH (total - Z.min total p) ltac:(discriminate) Hrest ltac:(lia)).
    destruct (compositions (r :: rest) (total - Z.min total p)) as [|v vs] eqn:Hc;
      [contradiction|].
    intros Hnil.
    assert (Z.min total p :: v
            ∈ seqZ 0 (Z.min total p + 1)
                ≫= fun i => cons i <$> compositions (r :: rest) (total - i)) as Hin.
    { apply list_elem_of_bind. exists (Z.min total p). split.
      - rewrite Hc. apply list_elem_of_fmap. exists v. split; [reflexivity | left].
      - apply elem_of_seqZ. lia. }
    rewrite Hnil in Hin. now apply elem_of_nil in Hin.
Qed.

(** X9. [getValidDrawVectors] throws when some category has no role list
    and at least one hand exists: with non-negative counts, fewer role lists
    than categories and [0 <= totalDraws <= sum(populationCounts)], the first
    completed vector raises the [TypeError] of [checkThresholds]. *)
Theorem getValidDrawVectors_throws (populationCounts : list Z) (totalDraws : Z)
    (targetRoles : list string) (atomToRoles : list (list string))
    (thresholds : gmap string Bounds) :
  Forall (fun p => 0 <= p) populationCounts →
  (length atomToRoles < length populationCounts)%nat →
  0 <= totalDraws <= foldr Z.add 0 populationCounts →
  getValidDrawVectors populationCounts totalDraws targetRoles atomToRoles thresholds
  = None.
Proof.
  intros Hpos Hshort Htotal. unfold getValidDrawVectors.
  rewrite solve_throws; [reflexivity | simpl; now rewrite length_replicate |].
  apply compositions_exist; [|assumption|assumption].
  intros ->. simpl in Hshort. lia.
Qed.

Lemma getValidDrawVectors_throws_witness :
  getValidDrawVectors [2; 2] 2 [] [[]] ∅ = None.
Proof.
  apply (getValidDrawVectors_throws [2; 2] 2 [] [[]] ∅).
  - repeat constructor; lia.
  - simpl. lia.
  - simpl. lia.
Defined.

Lemma compositions_zero pops :
  pops ≠ [] → Forall (fun p => 0 <= p) pops →
  compositions pops 0 = [replicate (length pops) 0].
Proof.
  induction pops as [|p rest IH]; intros Hne Hpos; [contradiction|].
  inversion Hpos as [|? ? Hp Hrest]; subst.
  destruct rest as [|r rest].
  - simpl. destruct (Z.leb_spec 0 p); [reflexivity | lia].
  - rewrite compositions_cons. rewrite Z.min_l by lia.
    change (seqZ 0 (0 + 1)) with [0]. rewrite bind_cons. simpl "≫=".
    rewrite app_nil_r. rewrite Z.sub_0_r, IH by (try discriminate; assumption).
    reflexivity.
Qed.

Lemma tally_zeros role (n : nat) : ∀ mapping, tally role (replicate n 0) mapping = 0.
Proof.
  unfold tally. induction n as [|n IH]; intros [|roles mapping]; simpl; try reflexivity.
  rewrite IH. reflexivity.
Qed.

(** X10. A draw of zero cards from non-negative categories has the all-zero
    vector as its only candidate: [getValidDrawVectors] returns it alone when
    every threshold allows a count of [0], and nothing otherwise. *)
Theorem getValidDrawVectors_zero_draws (populationCounts : list Z)
    (targetRoles : list string) (atomToRoles : list (list string))
    (thresholds : gmap string Bounds) :
  populationCounts ≠ [] →
  Forall (fun p => 0 <= p) populationCounts →
  (length populationCounts <= length atomToRoles)%nat →
  ((∀ role b, thresholds !! role = Some b → bound_min b <= 0 <= bound_max b) →
   getValidDrawVectors populationCounts 0 targetRoles atomToRoles thresholds
   = Some [replicate (length populationCounts) 0])
  ∧ (¬ (∀ role b, thresholds !! role = Some b → bound_min b <= 0 <= bound_max b) →
     getValidDrawVectors populationCounts 0 targetRoles atomToRoles thresholds
     = Some []).
Proof.
  intros Hne Hpos Hlen.
  rewrite getValidDrawVectors_compositions by assumption.
  rewrite compositions_zero by assumption.
  assert (accepted atomToRoles thresholds (replicate (length populationCounts) 0)
          ↔ ∀ role b, thresholds !! role = Some b → bound_min b <= 0 <= bound_max b)
    as Hacc.
  { unfold accepted. rewrite withinThresholds_spec.
    split; intros H role b Hb; specialize (H role b Hb);
      rewrite tally_zeros in *; assumption. }
  split; intros H.
  - rewrite filter_cons_True by (now apply Hacc). reflexivity.
  - rewrite filter_cons_False by (now rewrite Hacc). reflexivity.
Qed.

Lemma getValidDrawVectors_zero_draws_witness :
  ((∀ role b,
      ({[ "Starter"%string := {| bound_min := 1; bound_max := 40 |} ]}
         : gmap string Bounds) !! role = Some b →
      bound_min b <= 0 <= bound_max b) →
   getValidDrawVectors [12; 28] 0 [] [["Starter"]; []]%string
                       {[ "Starter"%string := {| bound_min := 1; bound_max := 40 |} ]}
   = Some [replicate (length [12; 28]) 0])
  ∧ (¬ (∀ role b,
          ({[ "Starter"%string := {| bound_min := 1; bound_max := 40 |} ]}
             : gmap string Bounds) !! role = Some b →
          bound_min b <= 0 <= bound_max b) →
     getValidDrawVectors [12; 28] 0 [] [["Starter"]; []]%string
                         {[ "Starter"%string := {| bound_min := 1; bound_max := 40 |} ]}
     = Some []).
Proof.
  apply (getValidDrawVectors_zero_draws [12; 28] [] [["Starter"]; []]%string).
  - discriminate.
  - repeat constructor; lia.
  - simpl. lia.
Defined.

(** X11. Thresholds only remove vectors, and keep the order of the others:
    whenever a threshold map extends another, what [getValidDrawVectors]
    returns for the larger map is a sublist of what it returns for the
    smaller one. *)
Theorem getValidDrawVectors_more_thresholds (populationCounts : list Z)
    (totalDraws : Z) (targetRoles : list string) (atomToRoles : list (list string))
    (thresholds thresholds' : gmap string Bounds) :
  (length populationCounts <= length atomToRoles)%nat →
  thresholds ⊆ thresholds' →
  ∃ vs vs',
    getValidDrawVectors populationCounts totalDraws targetRoles atomToRoles thresholds
    = Some vs
    ∧ getValidDrawVectors populationCounts totalDraws targetRoles atomToRoles thresholds'
      = Some vs'
    ∧ vs' `sublist_of` vs.
Proof.
  intros Hlen Hsub. rewrite !getValidDrawVectors_compositions by assumption.
  eexists _, _. split; [reflexivity|]. split; [reflexivity|].
  generalize (compositions populationCounts totalDraws) as l.
  induction l as [|v l IH]; [constructor|].
  rewrite !filter_cons.
  destruct (decide (accepted atomToRoles thresholds' v)) as [Ha'|Ha'].
  - assert (accepted atomToRoles thresholds v) as Ha.
    { unfold accepted in *. rewrite withinThresholds_spec in *.
      intros role b Hb. apply Ha'. eapply lookup_weaken; eassumption. }
    rewrite decide_True by assumption. now constructor.
  - destruct (decide (accepted atomToRoles thresholds v)); [now constructor | assumption].
Qed.

Lemma getValidDrawVectors_more_thresholds_witness :
  ∃ vs vs',
    getValidDrawVectors [3; 1] 2 [] [["A"]; ["Brick"]]%string ∅ = Some vs
    ∧ getValidDrawVectors [3; 1] 2 [] [["A"]; ["Brick"]]%string
                          {[ "Brick"%string := {| bound_min := 0; bound_max := 0 |} ]}
      = Some vs'
    ∧ vs' `sublist_of` vs.
Proof.
  apply (getValidDrawVectors_more_thresholds [3; 1] 2 [] [["A"]; ["Brick"]]%string).
  - simpl. lia.
  - apply map_empty_subseteq.
Defined.

(** ** The match and tournament aggregator, continued *)

Section Aggregator.
Local Open Scope Q_scope.

(** The best-of-3 combination of four probabilities is a probability. *)
Lemma bo3_bounds (g1 g2w g2l g3 : Q) :
  0 <= g1 <= 1 → 0 <= g2w <= 1 → 0 <= g2l <= 1 → 0 <= g3 <= 1 →
  0 <= g1 * g2w + g1 * (1 + - g2w) * g3 + (1 + - g1) * g2l * g3 <= 1.
Proof.
  intros H1 H2 H3 H4.
  assert (0 <= g1 * g2w) by nra.
  assert (0 <= g1 * (1 + - g2w)) by nra.
  assert (0 <= (1 + - g1) * g2l) by nra.
  assert (g1 * (1 + - g2w) * g3 <= g1 * (1 + - g2w)) by nra.
  assert ((1 + - g1) * g2l * g3 <= (1 + - g1) * g2l) by nra.
  assert ((1 + - g1) * g2l <= 1 + - g1) by nra.
  assert (0 <= g1 * (1 + - g2w) * g3) by nra.
  assert (0 <= (1 + - g1) * g2l * g3) by nra.
  split; lra.
Qed.

(** X13. The best-of-3 formula maps probabilities to a probability: with the
    four game probabilities in [[0, 1]], [P_match] (and [pMatch] of the
    earlier [tournamentResults]) is a real number in [[0, 1]]. *)
Theorem P_match_probability (g1 g2w g2l g3 : Q) :
  0 <= g1 <= 1 → 0 <= g2w <= 1 → 0 <= g2l <= 1 → 0 <= g3 <= 1 →
  in_interval 0 1 (P_match (Fin g1) (Fin g2w) (Fin g2l) (Fin g3))
  ∧ in_interval 0 1 (pMatch (Fin g1) (Fin g2w) (Fin g3)).
Proof.
  intros H1 H2 H3 H4. split.
  - apply (bo3_bounds g1 g2w g2l g3); assumption.
  - apply (bo3_bounds g1 g2w g2w g3); assumption.
Qed.

Lemma P_match_probability_witness :
  in_interval 0 1 (P_match (Fin (6 # 10)) (Fin (5 # 10)) (Fin (7 # 10)) (Fin (6 # 10)))
  ∧ in_interval 0 1 (pMatch (Fin (6 # 10)) (Fin (5 # 10)) (Fin (6 # 10))).
Proof.
  apply (P_match_probability (6 # 10) (5 # 10) (7 # 10) (6 # 10));
    split; discriminate.
Defined.

End Aggregator.

(** X20. A threshold of zero wins or less is the threshold zero: for every
    distribution, every round count and every [topCutThreshold <= 0],
    [topCutProb] is what it is for the threshold [0].  The entries
    [roundsDist[w]] of negative [w] are [undefined], count as [0], and
    [0 + 0] is [0]. *)
Theorem topCutProb_low_threshold (tournamentRounds topCutThreshold : Z)
    (dist : list RoundRecord) :
  topCutThreshold <= 0 →
  topCutProb tournamentRounds topCutThreshold dist = topCutProb tournamentRounds 0 dist.
Proof.
  intros HT. unfold topCutProb.
  assert (∀ k : nat, ∀ T, T + Z.of_nat k <= 0 →
            foldl (fun topCutProb w => (topCutProb + probOfWins dist w)%float)
                  0%float (seqZ T (Z.of_nat k)) = 0%float) as Hzeros.
  { induction k as [|k IH]; intros T Hk; [reflexivity|].
    rewrite seqZ_S, foldl_snoc, IH by lia.
    unfold probOfWins. replace (T + Z.of_nat k <? 0) with true; [reflexivity|].
    symmetry. apply Z.ltb_lt. lia. }
  destruct (decide (0 <= tournamentRounds + 1)) as [Hrounds|Hnone].
  - replace (tournamentRounds - topCutThreshold + 1)
      with (Z.of_nat (Z.to_nat (- topCutThreshold)) + (tournamentRounds - 0 + 1)) by lia.
    rewrite seqZ_app by lia. rewrite foldl_app, Hzeros by lia.
    replace (topCutThreshold + Z.of_nat (Z.to_nat (- topCutThreshold))) with 0 by lia.
    reflexivity.
  - rewrite (seqZ_nil 0) by lia. simpl.
    destruct (decide (0 <= tournamentRounds - topCutThreshold + 1)) as [Hsome|Hless].
    + replace (tournamentRounds - topCutThreshold + 1)
        with (Z.of_nat (Z.to_nat (tournamentRounds - topCutThreshold + 1))) by lia.
      apply Hzeros. lia.
    + rewrite seqZ_nil by lia. reflexivity.
Qed.

Lemma topCutProb_low_threshold_witness :
  ∃ dist, roundsDist noMath true 8 sampleP = Some dist
          ∧ topCutProb 8 (-3) dist = topCutProb 8 0 dist.
Proof.
  eexists. split; [vm_compute; reflexivity|].
  apply (topCutProb_low_threshold 8 (-3)). lia.
Defined.

(** ** The probability of a condition in any deck *)

Lemma calcProbForDeck_sum deckAtoms totalDeck drawCount condition rolesList maxBricks :
  0 < drawCount → 0 < totalDeck →
  calcProbForDeck deckAtoms totalDeck drawCount condition rolesList maxBricks
  = Some (foldl (fun totalProb v =>
                   (totalProb
                    + multivariateHypergeometricPMF
                        (populationCounts (deckState deckAtoms totalDeck)) v
                        totalDeck drawCount)%num)
                (Fin 0)
                (filter (accepted (atomToRoles (deckState deckAtoms totalDeck))
                                  (brickCap (thresholdsOf condition) maxBricks))
                        (compositions (populationCounts (deckState deckAtoms totalDeck))
                                      drawCount))).
Proof.
  intros Hd Ht. unfold calcProbForDeck.
  assert ((drawCount <=? 0) || (totalDeck <=? 0) = false) as ->.
  { apply orb_false_iff. rewrite !Z.leb_gt. lia. }
  cbv zeta.
  change (eventProbability _ drawCount rolesList _ ?thr totalDeck)
    with (eventProbability (populationCounts (deckState deckAtoms totalDeck)) drawCount
                           rolesList (atomToRoles (deckState deckAtoms totalDeck)) thr
                           totalDeck).
  unfold eventProbability.
  rewrite getValidDrawVectors_compositions by (rewrite atomToRoles_length; lia).
  reflexivity.
Qed.

(** X15. The two probability calculators never throw: for every deck,
    deck size, draw count, condition, role list, brick cap and mulligan
    setting, [calcProbForDeck] and [calculateStepProb] return a number.  The
    role lists they pass to [getValidDrawVectors] are built alongside the
    category counts, one for each, so [checkThresholds] finds a role list at
    every index. *)
Theorem calcProbForDeck_never_throws (s : AppState) (deckAtoms : list DeckAtom)
    (totalDeck drawCount : Z) (condition : CompoundCondition)
    (rolesList : list string) (maxBricks : option Z) (forceMulligan : option bool) :
  (∃ x, calcProbForDeck deckAtoms totalDeck drawCount condition rolesList maxBricks
        = Some x)
  ∧ (∃ y, calculateStepProb s drawCount condition forceMulligan = Some y).
Proof.
  split.
  - destruct (decide (drawCount <= 0 ∨ totalDeck <= 0)) as [Hguard|Hpast].
    + exists (Fin 0). unfold calcProbForDeck.
      replace ((drawCount <=? 0) || (totalDeck <=? 0)) with true; [reflexivity|].
      symmetry. apply orb_true_iff. rewrite !Z.leb_le. exact Hguard.
    + rewrite calcProbForDeck_sum by lia. eexists. reflexivity.
  - unfold calculateStepProb, calculateStepProb_run.
    destruct ((drawCount <=? 0) || (deckSize s <=? 0)); [eexists; reflexivity|].
    rewrite !baseProb_total. cbn [mbind option_bind].
    destruct (enabled (mulligan s) && _ && _); eexists; reflexivity.
Qed.

Lemma brickCap_stricter thresholds maxBricks v mapping :
  accepted mapping (brickCap thresholds maxBricks) v → accepted mapping thresholds v.
Proof.
  unfold accepted. rewrite !withinThresholds_spec. intros H role b Hb.
  destruct maxBricks as [cap|]; [|now apply H]. unfold brickCap in H.
  destruct (decide (role = "Brick"%string)) as [->|Hne].
  - rewrite Hb in H.
    specialize (H "Brick"%string _ (lookup_insert_eq _ _ _)). simpl in H. lia.
  - destruct (thresholds !! "Brick"%string);
      apply H; rewrite lookup_insert_ne by congruence; assumption.
Qed.

(** X16. The dead-draw penalty only removes draw vectors.  Past the guard,
    [calcProbForDeck] with a brick cap sums the probabilities of a sublist
    of the vectors it sums without one: the vectors that
    [getValidDrawVectors] returns for the capped thresholds are, in the same
    order, among those it returns for the thresholds of the condition. *)
Theorem calcProbForDeck_cap_removes (deckAtoms : list DeckAtom)
    (totalDeck drawCount : Z) (condition : CompoundCondition)
    (rolesList : list string) (maxBricks : Z) :
  0 < drawCount → 0 < totalDeck →
  let populationCounts := populationCounts (deckState deckAtoms totalDeck) in
  let atomToRoles := atomToRoles (deckState deckAtoms totalDeck) in
  let total vectors :=
    foldl (fun totalProb v =>
             (totalProb
              + multivariateHypergeometricPMF populationCounts v totalDeck drawCount)%num)
          (Fin 0) vectors in
  ∃ vectors capped,
    getValidDrawVectors populationCounts drawCount rolesList atomToRoles
                        (thresholdsOf condition) = Some vectors
    ∧ getValidDrawVectors populationCounts drawCount rolesList atomToRoles
                          (brickCap (thresholdsOf condition) (Some maxBricks))
      = Some capped
    ∧ capped `sublist_of` vectors
    ∧ calcProbForDeck deckAtoms totalDeck drawCount condition rolesList None
      = Some (total vectors)
    ∧ calcProbForDeck deckAtoms totalDeck drawCount condition rolesList (Some maxBricks)
      = Some (total capped).
Proof.
  intros Hd Ht. cbv zeta.
  rewrite !getValidDrawVectors_compositions by (rewrite atomToRoles_length; lia).
  rewrite !calcProbForDeck_sum by assumption.
  eexists _, _. split; [reflexivity|]. split; [reflexivity|].
  split; [|split; reflexivity].
  generalize (compositions (populationCounts (deckState deckAtoms totalDeck)) drawCount)
    as l.
  induction l as [|v l IH]; [constructor|].
  rewrite !filter_cons.
  destruct (decide (accepted _ (brickCap (thresholdsOf condition) (Some maxBricks)) v))
    as [Hcap|Hcap].
  - rewrite decide_True by (eapply brickCap_stricter; exact Hcap).
    now apply sublist_skip.
  - destruct (decide (accepted _ (thresholdsOf condition) v));
      [now apply sublist_cons | assumption].
Qed.

Lemma calcProbForDeck_cap_removes_witness :
  let populationCounts := populationCounts (deckState brickDeck 40) in
  let atomToRoles := atomToRoles (deckState brickDeck 40) in
  let total vectors :=
    foldl (fun totalProb v =>
             (totalProb + multivariateHypergeometricPMF populationCounts v 40 5)%num)
          (Fin 0) vectors in
  ∃ vectors capped,
    getValidDrawVectors populationCounts 5 DEFAULT_ROLES atomToRoles
                        (thresholdsOf atLeastOneStarter) = Some vectors
    ∧ getValidDrawVectors populationCounts 5 DEFAULT_ROLES atomToRoles
                          (brickCap (thresholdsOf atLeastOneStarter) (Some 1))
      = Some capped
    ∧ capped `sublist_of` vectors
    ∧ calcProbForDeck brickDeck 40 5 atLeastOneStarter DEFAULT_ROLES None
      = Some (total vectors)
    ∧ calcProbForDeck brickDeck 40 5 atLeastOneStarter DEFAULT_ROLES (Some 1)
      = Some (total capped).
Proof.
  apply (calcProbForDeck_cap_removes brickDeck 40 5 atLeastOneStarter DEFAULT_ROLES 1);
    lia.
Defined.

(** X17. On the main deck and without a brick cap, [calcProbForDeck] is the
    unadjusted [calculateStepProb]: the two agree whenever the mulligan is
    disabled or [forceMulligan] is set, the early return included. *)
Theorem calcProbForDeck_main_deck (s : AppState) (drawCount : Z)
    (condition : CompoundCondition) (forceMulligan : option bool) :
  enabled (mulligan s) = false ∨ forceMulligan = Some true →
  calcProbForDeck (atoms s) (deckSize s) drawCount condition (allRoles s) None
  = calculateStepProb s drawCount condition forceMulligan.
Proof.
  intros Hplain. unfold calcProbForDeck, calculateStepProb, calculateStepProb_run.
  destruct ((drawCount <=? 0) || (deckSize s <=? 0)); [reflexivity|].
  cbv zeta. unfold baseProb, brickCap.
  change (eventProbability _ drawCount (allRoles s) _ (thresholdsOf condition) (deckSize s))
    with (eventProbability (populationCounts s) drawCount (allRoles s) (atomToRoles s)
                           (thresholdsOf condition) (deckSize s)).
  destruct (eventProbability (populationCounts s) drawCount (allRoles s) (atomToRoles s)
                             (thresholdsOf condition) (deckSize s)) as [rawProb|];
    [|reflexivity].
  cbn [mbind option_bind].
  destruct Hplain as [-> | ->]; [reflexivity|].
  cbn [default negb]. rewrite andb_false_r. reflexivity.
Qed.

Lemma calcProbForDeck_main_deck_witness :
  calcProbForDeck (atoms sampleState) (deckSize sampleState) 1 needsStarter
                  (allRoles sampleState) None
  = calculateStepProb sampleState 1 needsStarter (Some true).
Proof.
  apply (calcProbForDeck_main_deck sampleState 1 needsStarter (Some true)).
  right. reflexivity.
Defined.

(** ** The derived state of the deck *)

(** Adding labels to a JavaScript [Set] and reading it as an array. *)
Lemma set_insertion (l : list string) : ∀ acc,
  NoDup acc →
  let res := foldl (fun roles r => if bool_decide (r ∈ roles) then roles else roles ++ [r])
                   acc l in
  NoDup res ∧ (∃ extra, res = acc ++ extra) ∧ ∀ r, r ∈ res ↔ r ∈ acc ∨ r ∈ l.
Proof.
  induction l as [|x l IH]; intros acc Hacc; cbn [foldl]; cbv zeta.
  - split; [assumption|]. split; [exists []; now rewrite app_nil_r|].
    intros r. rewrite elem_of_nil. tauto.
  - destruct (bool_decide_reflect (x ∈ acc)) as [Hin|Hout].
    + destruct (IH acc Hacc) as (Hnd & Hext & Helem). split; [assumption|].
      split; [assumption|]. intros r. rewrite Helem, elem_of_cons.
      split; [tauto|]. intros [?|[->|?]]; tauto.
    + assert (NoDup (acc ++ [x])) as Hacc'.
      { apply NoDup_app. split; [assumption|]. split; [|apply NoDup_singleton].
        intros y Hy Hy'. apply list_elem_of_singleton in Hy'. subst. contradiction. }
      destruct (IH (acc ++ [x]) Hacc') as (Hnd & [extra Hext] & Helem).
      split; [assumption|]. split.
      * exists (x :: extra). rewrite Hext, <- app_assoc. reflexivity.
      * intros r. rewrite Helem, elem_of_app, list_elem_of_singleton, elem_of_cons. tauto.
Qed.

Lemma rolesOf_set (deckAtoms : list DeckAtom) :
  NoDup (rolesOf deckAtoms)
  ∧ (∃ extra, rolesOf deckAtoms = DEFAULT_ROLES ++ extra)
  ∧ ∀ r, r ∈ rolesOf deckAtoms
         ↔ r ∈ DEFAULT_ROLES ∨ r ∈ concat (roles <$> deckAtoms).
Proof.
  unfold rolesOf. rewrite foldl_app.
  change (foldl _ [] DEFAULT_ROLES) with DEFAULT_ROLES.
  apply set_insertion. unfold DEFAULT_ROLES.
  repeat (apply NoDup_cons; split; [rewrite ?elem_of_cons, elem_of_nil; intuition discriminate|]).
  apply NoDup_nil_2.
Qed.

Lemma elem_of_concat (r : string) (ls : list (list string)) :
  r ∈ concat ls ↔ ∃ l, r ∈ l ∧ l ∈ ls.
Proof.
  induction ls as [|l ls IH]; simpl.
  - rewrite elem_of_nil. split; [tauto|]. intros (l & _ & Hl). now apply elem_of_nil in Hl.
  - rewrite elem_of_app, IH. split.
    + intros [Hr|(l' & Hr & Hl')]; [exists l; split; [assumption | left]|].
      exists l'. split; [assumption | now right].
    + intros (l' & Hr & Hl'). apply elem_of_cons in Hl' as [->|Hl']; [now left|].
      right. eauto.
Qed.

(** X24. [allRoles] and [postSideAllRoles] list every label once: the five
    default roles first, in their order, then the other roles of the atoms;
    a label is listed exactly when it is a default role or a role of some
    atom. *)
Theorem rolesOf_spec (deckAtoms : list DeckAtom) :
  NoDup (rolesOf deckAtoms)
  ∧ (∃ extra, rolesOf deckAtoms = DEFAULT_ROLES ++ extra)
  ∧ ∀ r, r ∈ rolesOf deckAtoms
         ↔ r ∈ DEFAULT_ROLES ∨ ∃ a, a ∈ deckAtoms ∧ r ∈ roles a.
Proof.
  destruct (rolesOf_set deckAtoms) as (Hnd & Hext & Helem).
  split; [assumption|]. split; [assumption|].
  intros r. rewrite Helem. apply or_iff_compat_l.
  rewrite elem_of_concat. split.
  - intros (rs & Hr & Hrs). apply list_elem_of_fmap in Hrs as (a & -> & Ha). eauto.
  - intros (a & Ha & Hr). exists (roles a). split; [assumption|].
    apply list_elem_of_fmap. eauto.
Qed.

Lemma countsAre_ext keys counts g g' :
  (∀ r, g r = g' r) → countsAre keys counts g → countsAre keys counts g'.
Proof. intros Hg H r. rewrite <- Hg. apply H. Qed.

Lemma countsAre_initial (keys : list string) :
  countsAre keys (foldl (fun counts r => <[r := Fin 0]> counts) ∅ keys) (fun _ => 0).
Proof.
  assert (∀ l (m : gmap string number) r,
            foldl (fun counts r => <[r := Fin 0]> counts) m l !! r
            = if bool_decide (r ∈ l) then Some (Fin 0) else m !! r) as H.
  { induction l as [|x l IH]; intros m r; [reflexivity|].
    cbn [foldl]. rewrite IH.
    destruct (bool_decide_reflect (r ∈ l)) as [Hin|Hout].
    - rewrite bool_decide_eq_true_2 by (now right). reflexivity.
    - destruct (decide (r = x)) as [->|Hne].
      + rewrite lookup_insert_eq, bool_decide_eq_true_2 by left. reflexivity.
      + rewrite lookup_insert_ne by congruence.
        rewrite bool_decide_eq_false_2; [reflexivity|].
        rewrite elem_of_cons. tauto. }
  intros r. rewrite H. split; intros Hr.
  - rewrite bool_decide_eq_true_2 by assumption. exists 0%Q. split; reflexivity.
  - rewrite bool_decide_eq_false_2 by assumption. apply lookup_empty.
Qed.

Lemma countsAre_roles keys (c : Z) (rs : list string) : ∀ counts g,
  (∀ r, r ∈ rs → r ∈ keys) → countsAre keys counts g →
  countsAre keys
    (foldl (fun counts role =>
              <[role := (default NaN (counts !! role) + of_int c)%num]> counts)
           counts rs)
    (fun r => g r + c * occurrences r rs).
Proof.
  induction rs as [|x rs IH]; intros counts g Hkeys Hinv.
  - apply (countsAre_ext _ _ g); [intros; simpl; lia | assumption].
  - cbn [foldl].
    eapply countsAre_ext;
      [|apply (IH _ (fun r => g r + c * (if bool_decide (x = r) then 1 else 0)))].
    + intros r. simpl. lia.
    + intros r Hr. apply Hkeys. now right.
    + intros r. destruct (Hinv r) as [Hin Hout]. destruct (decide (r = x)) as [->|Hne].
      * rewrite lookup_insert_eq, bool_decide_eq_true_2 by reflexivity. split.
        -- intros _. destruct (Hin (Hkeys x ltac:(left))) as (q & -> & Hq).
           eexists. split; [reflexivity|]. rewrite Hq.
           rewrite inject_Z_plus, Z.mul_1_r. reflexivity.
        -- intros Hx. exfalso. apply Hx, Hkeys. left.
      * rewrite lookup_insert_ne, bool_decide_eq_false_2 by congruence. split.
        -- intros Hr. destruct (Hin Hr) as (q & -> & Hq). exists q.
           split; [reflexivity|]. rewrite Hq. f_equiv. lia.
        -- assumption.
Qed.

Lemma countsAre_atoms keys (deckAtoms : list DeckAtom) : ∀ counts g,
  (∀ a r, a ∈ deckAtoms → r ∈ roles a → r ∈ keys) → countsAre keys counts g →
  countsAre keys
    (foldl (fun counts atom =>
              foldl (fun counts role =>
                       <[role := (default NaN (counts !! role) + of_int (count atom))%num]>
                         counts)
                    counts (roles atom))
           counts deckAtoms)
    (fun r => g r + roleTotal r deckAtoms).
Proof.
  induction deckAtoms as [|a l IH]; intros counts g Hkeys Hinv.
  - apply (countsAre_ext _ _ g); [intros; unfold roleTotal; simpl; lia | assumption].
  - cbn [foldl].
    eapply countsAre_ext; [|apply IH; [|apply countsAre_roles; [|exact Hinv]]].
    + intros r. unfold roleTotal, sumOver. simpl. lia.
    + intros b r Hb. apply Hkeys. now right.
    + intros r. apply Hkeys. left.
Qed.

(** X25. [globalRoleCounts] has exactly the labels of [allRoles] as keys,
    and the count of a label is the number of cards that list it, an atom
    that lists it twice counted twice.  No count is [NaN]: every role of an
    atom was set to [0] before the sums. *)
Theorem globalRoleCounts_spec (s : AppState) (r : string) :
  (r ∈ allRoles s →
     ∃ q, globalRoleCounts s !! r = Some (Fin q)
          ∧ (q == inject_Z (roleTotal r (atoms s)))%Q)
  ∧ (r ∉ allRoles s → globalRoleCounts s !! r = None).
Proof.
  unfold globalRoleCounts. cbv zeta.
  apply (countsAre_atoms (allRoles s) (atoms s) _ (fun _ => 0)).
  - intros a r' Ha Hr'.
    apply (proj2 (proj2 (rolesOf_set (atoms s)))). right.
    apply elem_of_concat. exists (roles a). split; [assumption|].
    apply list_elem_of_fmap. eauto.
  - apply countsAre_initial.
Qed.

(** ** [toggleRoleInAtom] *)

Lemma DeckAtom_eta (a : DeckAtom) :
  {| id := id a; name := name a; count := count a; roles := roles a |} = a.
Proof. destruct a. reflexivity. Qed.



(** X27. Adding a role and removing it again restores the deck: when no
    atom with the id [atomId] lists [role], toggling the role twice returns
    the atoms as they were, the order of their roles included. *)
Theorem toggleRoleInAtom_twice (deckAtoms : list DeckAtom) (atomId role : string) :
  (∀ a, a ∈ deckAtoms → id a = atomId → role ∉ roles a) →
  toggleRoleInAtom (toggleRoleInAtom deckAtoms atomId role) atomId role = deckAtoms.
Proof.
  intros Hfresh. unfold toggleRoleInAtom. rewrite <- list_fmap_compose.
  rewrite <- (list_fmap_id deckAtoms) at 2.
  apply list_fmap_ext. intros i a Ha. simpl.
  apply list_elem_of_lookup_2 in Ha.
  destruct (bool_decide_reflect (id a ≠ atomId)) as [Hne|Heq].
  - rewrite bool_decide_eq_true_2 by assumption. reflexivity.
  - assert (id a = atomId) as Hid by (destruct (decide (id a = atomId)); tauto).
    specialize (Hfresh a Ha Hid).
    rewrite (bool_decide_eq_false_2 (role ∈ roles a)) by assumption. simpl.
    rewrite bool_decide_eq_false_2 by tauto.
    rewrite bool_decide_eq_true_2
      by (apply elem_of_app; right; apply list_elem_of_singleton; reflexivity).
    rewrite filter_app, filter_cons, filter_nil, decide_False by tauto.
    rewrite app_nil_r.
    replace (filter (fun r => r ≠ role) (roles a)) with (roles a);
      [apply DeckAtom_eta|].
    symmetry. clear -Hfresh. induction (roles a) as [|r rs IH]; [reflexivity|].
    rewrite filter_cons, decide_True by (intros ->; apply Hfresh; left).
    f_equal. apply IH. intros H. apply Hfresh. now right.
Qed.

Lemma toggleRoleInAtom_twice_witness :
  toggleRoleInAtom (toggleRoleInAtom (atoms sampleState) "1" "Brick") "1" "Brick"
  = atoms sampleState.
Proof.
  apply (toggleRoleInAtom_twice (atoms sampleState) "1" "Brick").
  intros a Ha _. vm_compute in Ha.
  repeat (apply elem_of_cons in Ha as [->|Ha];
          [simpl; rewrite ?elem_of_cons, elem_of_nil; intuition discriminate|]).
  now apply elem_of_nil in Ha.
Defined.

(** ** The deck after sideboarding *)

Lemma foldl_count_sumOver (l : list DeckAtom) :
  foldl (fun sum a => sum + count a) 0 l = sumOver count l.
Proof.
  assert (∀ z, foldl (fun sum a => sum + count a) z l = z + sumOver count l) as H.
  { unfold sumOver. induction l as [|a l IH]; intros z; simpl; [lia|]. rewrite IH. lia. }
  rewrite H. lia.
Qed.

Lemma sumOver_filter_pos {A} (f : A → Z) (l : list A) :
  (∀ x, x ∈ l → 0 <= f x) →
  sumOver f (filter (fun x => 0 < f x) l) = sumOver f l.
Proof.
  unfold sumOver. induction l as [|x l IH]; intros Hf; [reflexivity|].
  pose proof (Hf x ltac:(left)).
  specialize (IH ltac:(intros y Hy; apply Hf; now right)).
  rewrite filter_cons. destruct (decide (0 < f x)); simpl; lia.
Qed.

(** The values of [sideOuts], summed over the atoms that own them. *)
Lemma sidedOut_total (l : list DeckAtom) : ∀ (m : gmap string Z),
  NoDup (id <$> l) →
  (∀ k v, m !! k = Some v → ∃ a, a ∈ l ∧ id a = k) →
  map_fold (fun _ v sum => sum + v) 0 m
  = sumOver (fun a => default 0 (m !! id a)) l.
Proof.
  induction l as [|a l IH]; intros m Hnd Hkeys.
  - assert (m = ∅) as ->; [|reflexivity].
    apply map_eq. intros k. rewrite lookup_empty.
    destruct (m !! k) as [v|] eqn:Hk; [|reflexivity].
    destruct (Hkeys k v Hk) as (a & Ha & _). now apply elem_of_nil in Ha.
  - rewrite fmap_cons in Hnd. apply NoDup_cons in Hnd as [Hfresh Hnd].
    specialize (IH (delete (id a) m) Hnd).
    assert (sumOver (fun b => default 0 (delete (id a) m !! id b)) l
            = sumOver (fun b => default 0 (m !! id b)) l) as Hsame.
    { apply sumOver_ext_in. intros b Hb. rewrite lookup_delete_ne; [reflexivity|].
      intros Heq. apply Hfresh. rewrite Heq. apply list_elem_of_fmap. eauto. }
    assert (map_fold (fun _ v sum => sum + v) 0 (delete (id a) m)
            = sumOver (fun b => default 0 (m !! id b)) l) as Hrest.
    { rewrite <- Hsame. apply IH. intros k v Hk.
      destruct (decide (id a = k)) as [<-|Hne]; [now rewrite lookup_delete_eq in Hk|].
      rewrite lookup_delete_ne in Hk by assumption.
      destruct (Hkeys k v Hk) as (b & Hb & Hid).
      apply elem_of_cons in Hb as [->|Hb]; [contradiction|]. eauto. }
    change (sumOver ?f (a :: l)) with (f a + sumOver f l). cbv beta.
    destruct (m !! id a) as [v|] eqn:Ha.
    + rewrite (map_fold_delete_L _ _ (id a) v m); [rewrite Hrest; simpl; lia | | assumption].
      intros. lia.
    + rewrite delete_id in Hrest by assumption. rewrite Hrest. simpl. lia.
Qed.

Lemma postSideAtoms_total (s : AppState) (t : TournamentConfig) :
  Forall (fun a => 0 <= count a) (atoms s) → sideboardWithinDeck s t →
  sumOver count (postSideAtoms s t)
  = totalAtomCount s - totalSidedOut t + totalSidedIn t.
Proof.
  intros Hcounts (Hnd & Hkeys & Hside).
  unfold postSideAtoms, totalSidedIn, totalSidedOut, totalAtomCount. cbv zeta.
  rewrite sumOver_app, !foldl_count_sumOver.
  rewrite (sumOver_filter_pos count (sideDeckAtoms t))
    by (intros a Ha; revert a Ha; apply Forall_forall; assumption).
  rewrite (sumOver_filter_pos count)
    by (intros a Ha; apply list_elem_of_fmap in Ha as (b & -> & _); simpl; lia).
  rewrite sumOver_fmap. cbn [count].
  rewrite (sidedOut_total (atoms s) (sideOuts t) Hnd).
  2:{ intros k v Hk. destruct (Hkeys k v Hk) as (_ & a & Ha & Hid & _). eauto. }
  assert (∀ l : list DeckAtom,
            (∀ a, a ∈ l → 0 <= sidedOut t a <= count a) →
            sumOver (fun a => Z.max 0 (count a - sidedOut t a)) l
            = sumOver count l - sumOver (fun a => default 0 (sideOuts t !! id a)) l) as H.
  { unfold sumOver. induction l as [|a l IH]; intros Hl; [reflexivity|].
    pose proof (Hl a ltac:(left)).
    specialize (IH ltac:(intros b Hb; apply Hl; now right)).
    simpl in *. unfold sidedOut in *. lia. }
  rewrite H; [lia|].
  intros a Ha. unfold sidedOut.
  pose proof (proj1 (Forall_forall _ _) Hcounts a Ha) as Hc. simpl in Hc.
  destruct (sideOuts t !! id a) as [v|] eqn:Hv; simpl; [|lia].
  destruct (Hkeys (id a) v Hv) as (Hv0 & b & Hb & Hid & Hle).
  assert (b = a) as ->; [|lia].
  apply list_elem_of_lookup_1 in Ha as [i Hi]. apply list_elem_of_lookup_1 in Hb as [j Hj].
  assert (i = j) as ->; [|congruence].
  apply (NoDup_lookup (id <$> atoms s) i j (id a)); [assumption | |].
  - rewrite list_lookup_fmap, Hi. reflexivity.
  - rewrite list_lookup_fmap, Hj. simpl. congruence.
Qed.

(** X28. Sideboarding conserves the cards: when every entry of [sideOuts]
    belongs to one atom and removes at most its count, the atoms of
    [postSideAtoms] hold the main-deck cards less [totalSidedOut] plus
    [totalSidedIn], every atom left has a positive count, and the filler of
    the deck of size [postSideDeckSize] is the filler of the main deck. *)
Theorem postSideAtoms_conserves (s : AppState) (t : TournamentConfig) :
  Forall (fun a => 0 <= count a) (atoms s) → sideboardWithinDeck s t →
  Forall (fun a => 0 < count a) (postSideAtoms s t)
  ∧ totalAtomCount (deckState (postSideAtoms s t) (postSideDeckSize s t))
    = totalAtomCount s - totalSidedOut t + totalSidedIn t
  ∧ remainingCards (deckState (postSideAtoms s t) (postSideDeckSize s t))
    = remainingCards s.
Proof.
  intros Hcounts Hside.
  pose proof (postSideAtoms_total s t Hcounts Hside) as Htotal.
  assert (totalAtomCount (deckState (postSideAtoms s t) (postSideDeckSize s t))
          = sumOver count (postSideAtoms s t)) as Heq
      by apply foldl_count_sumOver.
  split; [|split].
  - unfold postSideAtoms. cbv zeta. apply Forall_app. split; apply Forall_forall;
      intros a Ha; apply list_elem_of_filter in Ha as [Ha _]; exact Ha.
  - rewrite Heq. exact Htotal.
  - unfold remainingCards. rewrite Heq, Htotal. unfold postSideDeckSize. simpl. lia.
Qed.

Lemma postSideAtoms_conserves_witness :
  let t := {| conditions := []; tournamentRounds := 3; sideboardVariance := 0;
              g1GoingFirst := true; topCutThreshold := 2;
              sideDeckAtoms := [ {| id := "9"; name := "Tech"; count := 2;
                                    roles := ["Defensive"%string] |} ];
              sideOuts := {[ "1"%string := 1 ]};
              isPostSideboard := true; brickSensitivity := false;
              staminaFactor := false |} in
  Forall (fun a => 0 < count a) (postSideAtoms sampleState t)
  ∧ totalAtomCount (deckState (postSideAtoms sampleState t)
                              (postSideDeckSize sampleState t))
    = totalAtomCount sampleState - totalSidedOut t + totalSidedIn t
  ∧ remainingCards (deckState (postSideAtoms sampleState t)
                              (postSideDeckSize sampleState t))
    = remainingCards sampleState.
Proof.
  intros t. apply (postSideAtoms_conserves sampleState t).
  - repeat constructor. simpl. lia.
  - split; [|split].
    + repeat constructor. simpl. rewrite elem_of_nil. tauto.
    + intros k v Hk.
      change (({[ "1"%string := 1 ]} : gmap string Z) !! k = Some v) in Hk.
      apply lookup_singleton_Some in Hk as [<- <-].
      split; [lia|]. eexists. split; [left|]. split; [reflexivity | simpl; lia].
    + repeat constructor. simpl. lia.
Defined.

(** ** The quantum weight tiers *)

Lemma addToTier_sum (n : Z) (tiers : list QuantumTier) : ∀ i,
  (i < length tiers)%nat →
  sumOver tier_count (addToTier i n tiers) = sumOver tier_count tiers + n
  ∧ length (addToTier i n tiers) = length tiers
  ∧ tier_name <$> addToTier i n tiers = tier_name <$> tiers.
Proof.
  induction tiers as [|x tiers IH]; intros i Hi; [simpl in Hi; lia|].
  destruct i as [|i].
  - unfold addToTier, sumOver. simpl. repeat split; lia.
  - destruct (IH i ltac:(simpl in Hi; lia)) as (Hsum & Hlen & Hnames).
    unfold addToTier in *.
    change (alter ?f (S i) (x :: tiers)) with (x :: alter f i tiers).
    rewrite fmap_cons, Hnames. cbn [length]. rewrite Hlen.
    change (sumOver tier_count (x :: ?l)) with (tier_count x + sumOver tier_count l).
    rewrite Hsum. repeat split. unfold sumOver. simpl. lia.
Qed.

(** X29. [quantumWeightData] puts every card of the active deck in one of
    its four tiers: the tiers keep their names and order, and their counts
    add up to the number of cards of the active atoms. *)
Theorem quantumWeightData_partition (s : AppState) (t : TournamentConfig) :
  tier_name <$> quantumWeightData s t
  = ["Ultimate (6.0)"; "Omni-Role (4.0)"; "Pure Role (2.0)"; "Brick (0.0)"]%string
  ∧ sumOver tier_count (quantumWeightData s t)
    = sumOver count (if isPostSideboard t then postSideAtoms s t else atoms s).
Proof.
  unfold quantumWeightData. cbv zeta.
  generalize (if isPostSideboard t then postSideAtoms s t else atoms s) as active.
  intros active.
  match goal with |- context [foldl ?f ?tiers active] =>
    assert (∀ l ts, length ts = 4%nat →
              length (foldl f ts l) = 4%nat
              ∧ tier_name <$> foldl f ts l = tier_name <$> ts
              ∧ sumOver tier_count (foldl f ts l)
                = sumOver tier_count ts + sumOver count l) as H
  end.
  { induction l as [|a l IH]; intros ts Hts.
    - unfold sumOver. simpl. repeat split; [assumption | lia].
    - cbn [foldl]. cbv zeta.
      match goal with |- context [foldl _ ?ts' l] =>
        assert (length ts' = 4%nat ∧ tier_name <$> ts' = tier_name <$> ts
                ∧ sumOver tier_count ts' = sumOver tier_count ts + count a)
          as (Hlen & Hnames & Hsum)
      end.
      { repeat match goal with |- context [if ?b then _ else _] => destruct b end;
          match goal with |- context [addToTier ?i _ _] =>
            destruct (addToTier_sum (count a) ts i ltac:(lia)) as (? & ? & ?)
          end; repeat split; congruence. }
      destruct (IH _ Hlen) as (Hlen' & Hnames' & Hsum').
      split; [assumption|]. split; [congruence|].
      rewrite Hsum', Hsum. unfold sumOver. simpl. lia. }
  match goal with |- context [foldl _ ?ts active] =>
    destruct (H active ts eq_refl) as (_ & Hnames & Hsum)
  end.
  split; [rewrite Hnames; reflexivity|].
  rewrite Hsum. unfold sumOver at 1. simpl. lia.
Qed.
